(** * The search pipeline executor (backend/airweave/search/executor.py)

    A shallow embedding of [SearchExecutor]: the operator planner
    ([_extract_operations_from_config]), the dependency scheduler
    ([_find_ready_operations], [_operation_exists]), the centralized event
    emitter ([emit]), finalization ([_finalize_context]) and the
    orchestrator ([execute]) with its guaranteed-cleanup block.

    Python objects are modelled as follows.
    - The shared context dictionary is the record [Context]; a key that may
      be missing is an [option] field, [timings] is an insertion-ordered
      association list and [errors] a list.
    - [executed] is a Python set of names: a [gset string].
    - An operator is a name, a dependency list and the behaviour of its
      [execute(context)]: the context it leaves behind, the calls it makes
      to the installed emitter, the exception it raises (if any) and the
      wall-clock time measured around it.
    - Everything the executor does to the outside world (publishing to the
      pubsub channel, logging, recording analytics, invoking operators) is
      collected in the record [Effects]; the answers of the outside world
      (does a publish raise, does the analytics call raise, what do the clocks
      read) are the record [Env].
    - Durations are wall-clock milliseconds, represented by integers. *)

From stdpp Require Import gmap strings list.
From Stdlib Require Import ZArith.

Local Open Scope string_scope.
Local Open Scope list_scope.
Local Open Scope nat_scope.
Local Set Warnings "-clear-no-such-hyp".

(** ** Exceptions and the error monad *)

Inductive Exn :=
| AttributeError                  (* attribute access on None *)
| OperatorError (message : string) (* raised by op.execute; message = str(e) *)
| AnalyticsError.                 (* raised by analytics.track_event *)

#[global] Instance Exn_eq_dec : EqDecision Exn.
Proof. solve_decision. Defined.

Definition raising (A : Type) : Type := (Exn + A)%type.

Definition raise {A} (e : Exn) : raising A := inl e.

#[global] Instance raising_ret : MRet raising := λ A a, inr a.
#[global] Instance raising_bind : MBind raising := λ A B k m,
  match m with
  | inl e => inl e
  | inr a => k a
  end.

(** Truthiness of an [Optional[str]]: [None] and the empty string are falsy. *)
Definition truthy (s : option string) : bool :=
  match s with
  | Some s => negb (bool_decide (s = ""))
  | None => false
  end.

(** ** Data model *)

(** A search result as produced by the pipeline. *)
Record Hit := { hit_id : Z }.

#[global] Instance Hit_eq_dec : EqDecision Hit.
Proof. solve_decision. Defined.

Record ExecutionSummary := {
  operations_executed : nat;
  total_time_ms : Z;
  errors_count : nat
}.

(** The context dictionary.  [ctx_extras] stands for the keys the executor
    only passes through ([expanded_queries], [embeddings], [filter],
    [completion], [collection_slug], ...); the handles [config], [db], [ctx],
    [logger], [openai_api_key] and [emit] carry no data of their own here. *)
Record Context := {
  ctx_query : string;
  ctx_request_id : option string;
  ctx_streaming_required : bool;
  ctx_timings : list (string * Z);
  ctx_errors : list (string * string);
  ctx_raw_results : option (list Hit);
  ctx_final_results : option (list Hit);
  ctx_execution_summary : option ExecutionSummary;
  ctx_extras : gmap string string
}.

(** A call [emit(event_type, data, op_name)] made by an operator through
    [context["emit"]]; the data of such an event is opaque to the executor. *)
Record EmitCall := {
  call_type : string;
  call_op : option string
}.

(** What one invocation of [op.execute(context)] does. *)
Record Outcome := {
  out_context : Context;        (* the context as the operator left it *)
  out_emits : list EmitCall;    (* its calls to the emitter, in order *)
  out_raised : option string;   (* [Some (str e)] when it raised [e] *)
  out_ms : Z                    (* (time.time() - op_start) * 1000 *)
}.

Record SearchOperation := {
  name : string;
  depends_on : list string;
  op_execute : Context → Outcome
}.

(** [SearchConfig]: every operator slot is populated or null. *)
Record SearchConfig := {
  query : string;
  limit : Z;
  offset : Z;
  query_expansion : option SearchOperation;
  query_interpretation : option SearchOperation;
  qdrant_filter : option SearchOperation;
  embedding : option SearchOperation;
  vector_search : option SearchOperation;
  recency : option SearchOperation;
  reranking : option SearchOperation;
  completion : option SearchOperation
}.

(** The part of [ApiContext] the executor reads. *)
Record ApiContext := {
  organization_id : string;
  organization_name : option string;
  user_id : option string
}.

(** ** Planner *)

(** [if config.slot: operations.append(config.slot)] *)
Definition optional_slot (slot : option SearchOperation)
  : list (option SearchOperation) :=
  match slot with
  | Some op => [Some op]
  | None => []
  end.

(** The two required slots are appended unconditionally, whatever they hold. *)
Definition _extract_operations_from_config (config : SearchConfig)
  : list (option SearchOperation) :=
  optional_slot (query_expansion config)
  ++ optional_slot (query_interpretation config)
  ++ optional_slot (qdrant_filter config)
  ++ [embedding config]
  ++ [vector_search config]
  ++ optional_slot (recency config)
  ++ optional_slot (reranking config)
  ++ optional_slot (completion config).

(** ** Dependency scheduler *)

(** [op.name], which raises when the plan entry is None. *)
Definition name_of (entry : option SearchOperation) : raising string :=
  match entry with
  | Some op => mret (name op)
  | None => raise AttributeError
  end.

(** [any(op.name == name for op in operations)], left to right, stopping at
    the first match. *)
Fixpoint _operation_exists (operations : list (option SearchOperation))
    (nm : string) : raising bool :=
  match operations with
  | [] => mret false
  | entry :: rest =>
      n ← name_of entry;
      if bool_decide (n = nm) then mret true else _operation_exists rest nm
  end.

(** [all(dep in executed or not self._operation_exists(operations, dep)
         for dep in op.depends_on)], stopping at the first falsy element. *)
Fixpoint deps_satisfied (operations : list (option SearchOperation))
    (executed : gset string) (deps : list string) : raising bool :=
  match deps with
  | [] => mret true
  | dep :: rest =>
      if bool_decide (dep ∈ executed) then deps_satisfied operations executed rest
      else
        found ← _operation_exists operations dep;
        if found : bool then mret false else deps_satisfied operations executed rest
  end.

(** The [for op in operations] loop of [_find_ready_operations] over the
    entries still to visit. *)
Fixpoint find_ready_loop (operations : list (option SearchOperation))
    (executed : gset string) (todo : list (option SearchOperation))
  : raising (list SearchOperation) :=
  match todo with
  | [] => mret []
  | None :: _ => raise AttributeError
  | Some op :: rest =>
      if bool_decide (name op ∈ executed)
      then find_ready_loop operations executed rest
      else
        ok ← deps_satisfied operations executed (depends_on op);
        ready ← find_ready_loop operations executed rest;
        mret (if ok : bool then op :: ready else ready)
  end.

Definition _find_ready_operations (operations : list (option SearchOperation))
    (executed : gset string) : raising (list SearchOperation) :=
  find_ready_loop operations executed operations.

(** The readiness condition in the words of the scheduler's contract: not yet
    executed, and every dependency executed or absent from the plan. *)
Definition ready_spec (plan : list SearchOperation) (executed : gset string)
    (op : SearchOperation) : Prop :=
  (name op ∉ executed)
  ∧ Forall (λ dep, dep ∈ executed ∨ dep ∉ (name <$> plan)) (depends_on op).

#[global] Instance ready_spec_dec plan executed op :
  Decision (ready_spec plan executed op).
Proof. unfold ready_spec. apply _. Defined.

(** ** Events, log lines and analytics records *)

(** The type-specific payload merged into an event frame. *)
Inductive EventData :=
| DStart (request_id : option string) (q : string) (lim off : Z)
| DOperatorStart (nm : string)
| DOperatorEnd (nm : string) (ms : Z)
| DError (operation message : string)
| DResults (results : list Hit)
| DSummary (timings : list (string * Z)) (errors : list (string * string))
    (total_ms : Z)
| DDone (request_id : option string)
| DOpaque.

(** The frame handed to [core_pubsub.publish]; the [ts] field (the wall
    clock at emit time) is left out. *)
Record Event := {
  ev_type : string;
  ev_seq : nat;
  ev_op : option string;
  ev_op_seq : option nat;
  ev_data : EventData
}.

Inductive LogEntry :=
| DebugConfigSummary
| DebugCompleted (nm : string) (ms : Z)
| DebugState (nm : string)
| DebugSearchCompleted (total_ms : Z) (n_executed n_operations : nat)
| LogError (nm message : string)
| LogWarning (remaining : list string).

Record Properties := {
  query_length : nat;
  collection_slug : string;
  duration_ms : Z;
  search_type : string;
  prop_organization_name : string;
  status : string;
  results_count : option nat
}.

(** One call [analytics.track_event(event_name, distinct_id, properties,
    groups)]. *)
Record TrackedEvent := {
  event_name : string;
  distinct_id : string;
  properties : Properties;
  group_organization : string
}.

(** The answers of the outside world during one [execute]. *)
Record Env := {
  publish_raises : Event → bool;
  track_event_raises : TrackedEvent → bool;
  clock_total_ms : Z;      (* (time.time() - start_time) * 1000 at the summary *)
  clock_duration_ms : Z    (* the same reading in the cleanup block *)
}.

(** What the executor has done to the outside world so far, oldest first,
    together with the emitter's two counters. *)
Record Effects := {
  global_sequence : nat;
  op_sequences : gmap string nat;
  published : list Event;          (* payloads passed to core_pubsub.publish *)
  delivered : list Event;          (* those whose publish did not raise *)
  logged : list LogEntry;
  tracked : list TrackedEvent;     (* calls to analytics.track_event *)
  invoked : list (string * bool)   (* calls to op.execute; true = returned *)
}.

Definition no_effects : Effects :=
  {| global_sequence := 0; op_sequences := ∅; published := [];
     delivered := []; logged := []; tracked := []; invoked := [] |}.

Definition log (entry : LogEntry) (fx : Effects) : Effects :=
  {| global_sequence := global_sequence fx; op_sequences := op_sequences fx;
     published := published fx; delivered := delivered fx;
     logged := logged fx ++ [entry];
     tracked := tracked fx; invoked := invoked fx |}.

Definition track (ev : TrackedEvent) (fx : Effects) : Effects :=
  {| global_sequence := global_sequence fx; op_sequences := op_sequences fx;
     published := published fx; delivered := delivered fx;
     logged := logged fx;
     tracked := tracked fx ++ [ev]; invoked := invoked fx |}.

Definition invoke (nm : string) (returned : bool) (fx : Effects) : Effects :=
  {| global_sequence := global_sequence fx; op_sequences := op_sequences fx;
     published := published fx; delivered := delivered fx;
     logged := logged fx;
     tracked := tracked fx; invoked := invoked fx ++ [(nm, returned)] |}.

(** ** Event emitter *)

(** The closure [emit] installed by [execute].  The counters move before the
    publish; whether the publish raises changes nothing but [delivered]. *)
Definition emit (env : Env) (request_id : option string)
    (event_type : string) (data : EventData) (op_name : option string)
    (fx : Effects) : Effects :=
  if negb (truthy request_id) then fx
  else
    let seq := S (global_sequence fx) in
    let op_sequences' :=
      match op_name with
      | Some nm =>
          if truthy op_name
          then <[nm := S (default 0 (op_sequences fx !! nm))]> (op_sequences fx)
          else op_sequences fx
      | None => op_sequences fx
      end in
    let op_seq_val :=
      match op_name with
      | Some nm => if truthy op_name then op_sequences' !! nm else None
      | None => None
      end in
    let payload :=
      {| ev_type := event_type; ev_seq := seq; ev_op := op_name;
         ev_op_seq := op_seq_val; ev_data := data |} in
    {| global_sequence := seq;
       op_sequences := op_sequences';
       published := published fx ++ [payload];
       delivered := if publish_raises env payload then delivered fx
                    else delivered fx ++ [payload];
       logged := logged fx; tracked := tracked fx; invoked := invoked fx |}.

(** The emitter calls an operator makes while it runs. *)
Definition emit_calls (env : Env) (request_id : option string)
    (calls : list EmitCall) (fx : Effects) : Effects :=
  foldl (λ acc c, emit env request_id (call_type c) DOpaque (call_op c) acc)
        fx calls.

(** ** Context operations *)

(** [d[k] = v] on an insertion-ordered dictionary. *)
Fixpoint dict_set {V} (k : string) (v : V) (d : list (string * V))
  : list (string * V) :=
  match d with
  | [] => [(k, v)]
  | (k', v') :: rest =>
      if bool_decide (k' = k) then (k, v) :: rest
      else (k', v') :: dict_set k v rest
  end.

Definition with_timing (nm : string) (ms : Z) (c : Context) : Context :=
  {| ctx_query := ctx_query c; ctx_request_id := ctx_request_id c;
     ctx_streaming_required := ctx_streaming_required c;
     ctx_timings := dict_set nm ms (ctx_timings c);
     ctx_errors := ctx_errors c;
     ctx_raw_results := ctx_raw_results c;
     ctx_final_results := ctx_final_results c;
     ctx_execution_summary := ctx_execution_summary c;
     ctx_extras := ctx_extras c |}.

Definition with_error (nm message : string) (c : Context) : Context :=
  {| ctx_query := ctx_query c; ctx_request_id := ctx_request_id c;
     ctx_streaming_required := ctx_streaming_required c;
     ctx_timings := ctx_timings c;
     ctx_errors := ctx_errors c ++ [(nm, message)];
     ctx_raw_results := ctx_raw_results c;
     ctx_final_results := ctx_final_results c;
     ctx_execution_summary := ctx_execution_summary c;
     ctx_extras := ctx_extras c |}.

Definition _initialize_context (config : SearchConfig) : Context :=
  {| ctx_query := query config; ctx_request_id := None;
     ctx_streaming_required := false;
     ctx_timings := []; ctx_errors := [];
     ctx_raw_results := None; ctx_final_results := None;
     ctx_execution_summary := None; ctx_extras := ∅ |}.

(** [context["request_id"] = request_id; context["streaming_required"] = True] *)
Definition attach_request_id (request_id : option string) (c : Context)
  : Context :=
  {| ctx_query := ctx_query c; ctx_request_id := request_id;
     ctx_streaming_required := true;
     ctx_timings := ctx_timings c; ctx_errors := ctx_errors c;
     ctx_raw_results := ctx_raw_results c;
     ctx_final_results := ctx_final_results c;
     ctx_execution_summary := ctx_execution_summary c;
     ctx_extras := ctx_extras c |}.

(** [sum(context["timings"].values())] *)
Definition sum_values (d : list (string * Z)) : Z :=
  foldl (λ acc kv, (acc + kv.2)%Z) 0%Z d.

Definition _finalize_context (c : Context) : Context :=
  let final :=
    match ctx_final_results c with
    | Some r => Some r
    | None => Some (default [] (ctx_raw_results c))
    end in
  {| ctx_query := ctx_query c; ctx_request_id := ctx_request_id c;
     ctx_streaming_required := ctx_streaming_required c;
     ctx_timings := ctx_timings c; ctx_errors := ctx_errors c;
     ctx_raw_results := ctx_raw_results c;
     ctx_final_results := final;
     ctx_execution_summary :=
       Some {| operations_executed := length (ctx_timings c);
               total_time_ms := sum_values (ctx_timings c);
               errors_count := length (ctx_errors c) |};
     ctx_extras := ctx_extras c |}.

(** ** The scheduler loop *)

(** The mutable state of the [while] loop. *)
Record LoopState := {
  context : Context;
  executed : gset string;
  effects : Effects
}.

(** How a block of code is left. *)
Inductive Exit :=
| Finished
| Raised (e : Exn)
| OutOfFuel.

Section Run.
Variable env : Env.
Variable request_id : option string.

(** The body of [for op in ready]: the [try] around one operator and its
    [except Exception] handler, which records the error, emits [error] and
    re-raises. *)
Definition run_operation (op : SearchOperation) (st : LoopState)
  : LoopState * option Exn :=
  let fx := emit env request_id "operator_start" (DOperatorStart (name op))
              (Some (name op)) (effects st) in
  let out := op_execute op (context st) in
  let fx := emit_calls env request_id (out_emits out) fx in
  match out_raised out with
  | None =>
      let fx := invoke (name op) true fx in
      let op_time := out_ms out in
      let c := with_timing (name op) op_time (out_context out) in
      let done := {[name op]} ∪ executed st in
      let fx := log (DebugCompleted (name op) op_time) fx in
      let fx := emit env request_id "operator_end"
                  (DOperatorEnd (name op) op_time) (Some (name op)) fx in
      let fx := log (DebugState (name op)) fx in
      ({| context := c; executed := done; effects := fx |}, None)
  | Some message =>
      let fx := invoke (name op) false fx in
      let fx := log (LogError (name op) message) fx in
      let c := with_error (name op) message (out_context out) in
      let fx := emit env request_id "error" (DError (name op) message)
                  (Some (name op)) fx in
      ({| context := c; executed := executed st; effects := fx |},
       Some (OperatorError message))
  end.

(** [for op in ready: ...], left by the first exception. *)
Fixpoint run_ready (ready : list SearchOperation) (st : LoopState)
  : LoopState * option Exn :=
  match ready with
  | [] => (st, None)
  | op :: rest =>
      match run_operation op st with
      | (st', None) => run_ready rest st'
      | (st', Some e) => (st', Some e)
      end
  end.

(** [[op.name for op in operations if op.name not in executed]] *)
Fixpoint remaining_names (operations : list (option SearchOperation))
    (done : gset string) : raising (list string) :=
  match operations with
  | [] => mret []
  | entry :: rest =>
      n ← name_of entry;
      names ← remaining_names rest done;
      mret (if bool_decide (n ∈ done) then names else (n : string) :: names)
  end.

Definition with_effects (fx : Effects) (st : LoopState) : LoopState :=
  {| context := context st; executed := executed st; effects := fx |}.

(** [while len(executed) < len(operations): ...].  The fuel bounds the
    number of iterations; [scheduler_loop_fuel] shows that the length of
    the plan is always enough. *)
Fixpoint scheduler_loop (fuel : nat)
    (operations : list (option SearchOperation)) (st : LoopState)
  : LoopState * Exit :=
  if bool_decide (size (executed st) < length operations) then
    match fuel with
    | 0 => (st, OutOfFuel)
    | S fuel' =>
        match _find_ready_operations operations (executed st) with
        | inl e => (st, Raised e)
        | inr [] =>
            if bool_decide (size (executed st) < length operations) then
              match remaining_names operations (executed st) with
              | inl e => (st, Raised e)
              | inr remaining =>
                  (with_effects (log (LogWarning remaining) (effects st)) st,
                   Finished)
              end
            else (st, Finished)
        | inr ready =>
            match run_ready ready st with
            | (st', None) => scheduler_loop fuel' operations st'
            | (st', Some e) => (st', Raised e)
            end
        end
    end
  else (st, Finished).

(** ** The orchestrator *)

(** The statements of the [try] block after the loop: finalization and
    the [results] and [summary] events. *)
Definition finalize_and_report (n_operations : nat) (st : LoopState)
  : LoopState :=
  let c := _finalize_context (context st) in
  let fx := emit env request_id "results"
              (DResults (default [] (ctx_final_results c))) None
              (effects st) in
  let total_time := clock_total_ms env in
  let fx := log (DebugSearchCompleted total_time (size (executed st))
                   n_operations) fx in
  let fx := emit env request_id "summary"
              (DSummary (ctx_timings c) (ctx_errors c) total_time) None fx in
  {| context := c; executed := executed st; effects := fx |}.

(** The [properties] dictionary built in the cleanup block. *)
Definition search_properties (ctx : ApiContext) (c : Context) : Properties :=
  {| query_length := String.length (ctx_query c);
     collection_slug := default "" (ctx_extras c !! "collection_slug");
     duration_ms := clock_duration_ms env;
     search_type := if truthy request_id then "streaming" else "regular";
     prop_organization_name := default "unknown" (organization_name ctx);
     status := "success";
     results_count :=
       match ctx_final_results c with
       | Some ((_ :: _) as final_results) => Some (length final_results)
       | _ => None
       end |}.

Definition search_query_event (ctx : ApiContext) (c : Context)
  : TrackedEvent :=
  {| event_name := "search_query";
     distinct_id := match user_id ctx with
                    | Some uid => uid
                    | None => "api_key_" +:+ organization_id ctx
                    end;
     properties := search_properties ctx c;
     group_organization := organization_id ctx |}.

(** What [execute] hands back: how it ended, the context object, and its
    effects. *)
Inductive Completion :=
| Returns (c : Context)
| Raises (e : Exn)
| Diverges.

Record Run := {
  outcome : Completion;
  final_context : Context;
  run_executed : gset string;
  run_effects : Effects
}.

(** The [finally] block: the analytics call, then [done].  An exception
    of the analytics call leaves the block at once and replaces whatever
    the [try] block was about to do. *)
Definition cleanup (ctx : ApiContext) (st : LoopState) (pending : option Exn)
  : Run :=
  let ev := search_query_event ctx (context st) in
  let fx := track ev (effects st) in
  if track_event_raises env ev then
    {| outcome := Raises AnalyticsError; final_context := context st;
       run_executed := executed st; run_effects := fx |}
  else
    let fx := emit env request_id "done" (DDone request_id) None fx in
    {| outcome := match pending with
                     | None => Returns (context st)
                     | Some e => Raises e
                     end;
       final_context := context st;
       run_executed := executed st; run_effects := fx |}.

(** The state in which the scheduler loop is entered: the context is
    initialized, the request id attached when streaming, the configuration
    summary logged and [start] emitted. *)
Definition initial_state (config : SearchConfig) : LoopState :=
  let c := _initialize_context config in
  let c := if truthy request_id then attach_request_id request_id c else c in
  let fx := log DebugConfigSummary no_effects in
  let fx := emit env request_id "start"
              (DStart request_id (query config) (limit config) (offset config))
              None fx in
  {| context := c; executed := ∅; effects := fx |}.

Definition execute (config : SearchConfig) (ctx : ApiContext) : Run :=
  let operations := _extract_operations_from_config config in
  match scheduler_loop (length operations) operations (initial_state config) with
  | (st, Finished) =>
      cleanup ctx (finalize_and_report (length operations) st) None
  | (st, Raised e) => cleanup ctx st (Some e)
  | (st, OutOfFuel) =>
      {| outcome := Diverges; final_context := context st;
         run_executed := executed st; run_effects := effects st |}
  end.

End Run.

(** ** Vocabulary of the properties *)

(** A property of the effects that no emitter call, log line or operator
    invocation can break. *)
Definition emit_stable (P : Effects → Prop) : Prop :=
  (∀ env rid t d o fx, P fx → P (emit env rid t d o fx))
  ∧ (∀ entry fx, P fx → P (log entry fx))
  ∧ (∀ nm b fx, P fx → P (invoke nm b fx)).

(** The frames handed to the publisher carry the numbers 1, 2, ... up to the
    global counter. *)
Definition dense (fx : Effects) : Prop :=
  ev_seq <$> published fx = seq 1 (global_sequence fx).

(** The stream opens with the [start] frame. *)
Definition opens_with_start (fx : Effects) : Prop :=
  ∃ first rest, published fx = first :: rest ∧ ev_type first = "start".

Definition untracked (fx : Effects) : Prop := tracked fx = [].

Definition all_returned (calls : list (string * bool)) : Prop :=
  Forall (λ call, call.2 = true) calls.

(** What the loop state looks like right after the handler of a failed
    operator. *)
Definition failed_state (rid : option string) (e : Exn) (st : LoopState)
  : Prop :=
  ∃ op c message calls,
    e = OperatorError message
    ∧ out_raised (op_execute op c) = Some message
    ∧ context st = with_error (name op) message (out_context (op_execute op c))
    ∧ invoked (effects st) = calls ++ [(name op, false)]
    ∧ all_returned calls
    ∧ (truthy rid = true →
       ∃ before ev,
         published (effects st) = before ++ [ev]
         ∧ ev_type ev = "error" ∧ ev_op ev = Some (name op)
         ∧ ev_data ev = DError (name op) message).

Definition lifecycle_types : list string :=
  ["operator_start"; "operator_end"; "error"].

(** The frames that are lifecycle transitions of the operator [nm]. *)
Definition is_transition (nm : string) (e : Event) : Prop :=
  ev_op e = Some nm ∧ ev_type e ∈ lifecycle_types.

#[global] Instance is_transition_dec nm e : Decision (is_transition nm e).
Proof. unfold is_transition. apply _. Defined.

Definition transitions (nm : string) (fx : Effects) : list string :=
  ev_type <$> filter (is_transition nm) (published fx).

(** The invocations of [execute] on an operator called [nm]. *)
Definition calls_of (nm : string) (fx : Effects) : list (string * bool) :=
  filter (λ call, call.1 = nm) (invoked fx).

(** The events an operator publishes on its own account are not lifecycle
    events. *)
Definition emits_no_lifecycle (op : SearchOperation) : Prop :=
  ∀ c, Forall (λ call, call_type call ∉ lifecycle_types)
         (out_emits (op_execute op c)).

Inductive Phase := NotStarted | Ended | Failed.

Definition phase_transitions (p : Phase) : list string :=
  match p with
  | NotStarted => []
  | Ended => ["operator_start"; "operator_end"]
  | Failed => ["operator_start"; "error"]
  end.

Definition phase_calls (nm : string) (p : Phase) : list (string * bool) :=
  match p with
  | NotStarted => []
  | Ended => [(nm, true)]
  | Failed => [(nm, false)]
  end.

Definition in_phase (fx : Effects) (nm : string) (p : Phase) : Prop :=
  transitions nm fx = phase_transitions p ∧ calls_of nm fx = phase_calls nm p.

Definition loop_phase (done : gset string) (nm : string) : Phase :=
  if decide (nm ∈ done) then Ended else NotStarted.

Definition lifecycle_inv (rest : list SearchOperation) (st : LoopState) : Prop :=
  (∀ nm, in_phase (effects st) nm (loop_phase (executed st) nm))
  ∧ NoDup (name <$> rest)
  ∧ Forall (λ op, (name op ∉ executed st) ∧ emits_no_lifecycle op) rest.

Definition lifecycle_failed (_ : Exn) (st : LoopState) : Prop :=
  ∃ failed, ∀ nm, in_phase (effects st) nm
                    (if decide (nm = failed) then Failed
                     else loop_phase (executed st) nm).

(** The loop state at the head of the [k]-th iteration, when the first [k]
    iterations each ran a non-empty batch to its end. *)
Fixpoint iteration (env : Env) (rid : option string)
    (operations : list (option SearchOperation)) (k : nat) (st : LoopState)
  : option LoopState :=
  match k with
  | 0 => Some st
  | S k' =>
      if bool_decide (size (executed st) < length operations) then
        match _find_ready_operations operations (executed st) with
        | inr (op :: ready) =>
            match run_ready env rid (op :: ready) st with
            | (st', None) => iteration env rid operations k' st'
            | _ => None
            end
        | _ => None
        end
      else None
  end.

(** An operator that does not touch the [timings] accumulator. *)
Definition leaves_timings (op : SearchOperation) : Prop :=
  ∀ c, ctx_timings (out_context (op_execute op c)) = ctx_timings c.

(** The keys of [timings] are the names of the operators invoked so far, in
    the order of invocation; all of these calls returned. *)
Definition timings_inv (rest : list SearchOperation) (st : LoopState) : Prop :=
  (ctx_timings (context st)).*1 = (invoked (effects st)).*1
  ∧ all_returned (invoked (effects st))
  ∧ (∀ nm, nm ∈ (invoked (effects st)).*1 → nm ∈ executed st)
  ∧ NoDup (name <$> rest)
  ∧ Forall (λ op, (name op ∉ executed st) ∧ leaves_timings op) rest.

(** ** Concrete configurations, operators and worlds *)

Module Scenarios.

Definition env_ok : Env :=
  {| publish_raises := λ _, false; track_event_raises := λ _, false;
     clock_total_ms := 12; clock_duration_ms := 13 |}.

(** The same world, except that the analytics call raises. *)
Definition env_sink_down : Env :=
  {| publish_raises := λ _, false; track_event_raises := λ _, true;
     clock_total_ms := 12; clock_duration_ms := 13 |}.

Definition api : ApiContext :=
  {| organization_id := "org-1"; organization_name := Some "Acme";
     user_id := None |}.

Definition returns (ms : Z) (emits : list EmitCall) (c : Context) : Outcome :=
  {| out_context := c; out_emits := emits; out_raised := None; out_ms := ms |}.

Definition with_raw_results (hits : list Hit) (c : Context) : Context :=
  {| ctx_query := ctx_query c; ctx_request_id := ctx_request_id c;
     ctx_streaming_required := ctx_streaming_required c;
     ctx_timings := ctx_timings c; ctx_errors := ctx_errors c;
     ctx_raw_results := Some hits;
     ctx_final_results := ctx_final_results c;
     ctx_execution_summary := ctx_execution_summary c;
     ctx_extras := ctx_extras c |}.

Definition embedding_op : SearchOperation :=
  {| name := "embedding"; depends_on := ["query_expansion"];
     op_execute :=
       returns 5 [{| call_type := "embedding_done";
                     call_op := Some "embedding" |}] |}.

Definition vector_search_op : SearchOperation :=
  {| name := "vector_search"; depends_on := ["embedding"; "qdrant_filter"];
     op_execute := λ c,
       returns 7 [] (with_raw_results [{| hit_id := 1 |}; {| hit_id := 2 |}] c) |}.

Definition reranking_boom : SearchOperation :=
  {| name := "reranking"; depends_on := ["vector_search"];
     op_execute := λ c,
       {| out_context := c; out_emits := []; out_raised := Some "boom";
          out_ms := 3 |} |}.

(** Two operators that wait for each other. *)
Definition op_a : SearchOperation :=
  {| name := "A"; depends_on := ["B"]; op_execute := returns 1 [] |}.
Definition op_b : SearchOperation :=
  {| name := "B"; depends_on := ["A"]; op_execute := returns 1 [] |}.

Definition config_with (e v r c : option SearchOperation) : SearchConfig :=
  {| query := "hello"; limit := 10; offset := 0;
     query_expansion := None; query_interpretation := None;
     qdrant_filter := None;
     embedding := e; vector_search := v;
     recency := None; reranking := r; completion := c |}.

(** Only the two required operators. *)
Definition minimal_config : SearchConfig :=
  config_with (Some embedding_op) (Some vector_search_op) None None.

(** Reranking raises "boom". *)
Definition failing_config : SearchConfig :=
  config_with (Some embedding_op) (Some vector_search_op)
    (Some reranking_boom) None.

(** [A] and [B] in the required slots. *)
Definition cyclic_config : SearchConfig :=
  config_with (Some op_a) (Some op_b) None None.

(** Embedding runs, then [A] and [B] block each other. *)
Definition late_cycle_config : SearchConfig :=
  config_with (Some embedding_op) (Some vector_search_op)
    (Some op_a) (Some op_b).

(** The [embedding] slot is null. *)
Definition null_config : SearchConfig :=
  config_with None (Some vector_search_op) None None.

(** The loop state of [late_cycle_config] when nothing is ready any more. *)
Definition late_cycle_stuck : LoopState :=
  default (initial_state env_ok (Some "r1") late_cycle_config)
    (iteration env_ok (Some "r1")
       (_extract_operations_from_config late_cycle_config) 2
       (initial_state env_ok (Some "r1") late_cycle_config)).

End Scenarios.

(** ** Vocabulary of the further properties *)

(** A property of the effects kept by the emitter of one run (fixed world
    and request id), by log lines and by operator invocations. *)
Definition run_stable (env : Env) (rid : option string) (P : Effects → Prop)
  : Prop :=
  (∀ t d o fx, P fx → P (emit env rid t d o fx))
  ∧ (∀ entry fx, P fx → P (log entry fx))
  ∧ (∀ nm b fx, P fx → P (invoke nm b fx))
  ∧ (∀ ev fx, P fx → P (track ev fx)).

(** Nothing was handed to the publisher and the counters never moved. *)
Definition silent (fx : Effects) : Prop :=
  published fx = [] ∧ delivered fx = [] ∧ global_sequence fx = 0
  ∧ op_sequences fx = ∅.

(** The frames tagged with the operator name [nm]. *)
Definition tagged (nm : string) (fx : Effects) : list Event :=
  filter (λ e, ev_op e = Some nm) (published fx).

(** Per-operator sub-sequence numbers: the frames tagged [nm] carry
    1, 2, ..., up to the counter kept for [nm]; untagged frames and frames
    tagged with the empty name carry none. *)
Definition op_dense (fx : Effects) : Prop :=
  (∀ nm, nm ≠ "" →
     ev_op_seq <$> tagged nm fx
     = Some <$> seq 1 (default 0 (op_sequences fx !! nm)))
  ∧ Forall (λ e, ev_op e = None ∨ ev_op e = Some "" → ev_op_seq e = None)
      (published fx).

(** The dependencies of [op] are met by the calls [seen]: each one names an
    operator whose call returned, or is not the name of any plan operator. *)
Definition deps_met (operations : list (option SearchOperation))
    (seen : list (string * bool)) (op : SearchOperation) : Prop :=
  Forall (λ dep, (dep, true) ∈ seen
                 ∨ dep ∉ (name <$> omap id operations))
    (depends_on op).

(** Every call in [calls] is the call of a plan operator whose dependencies
    were met by the calls before it. *)
Definition in_dependency_order (operations : list (option SearchOperation))
    (calls : list (string * bool)) : Prop :=
  ∀ before nm b after,
    calls = before ++ (nm, b) :: after →
    ∃ op, Some op ∈ operations ∧ name op = nm
          ∧ deps_met operations before op.

Definition order_inv (operations : list (option SearchOperation))
    (rest : list SearchOperation) (st : LoopState) : Prop :=
  in_dependency_order operations (invoked (effects st))
  ∧ (∀ nm, nm ∈ executed st ↔ (nm, true) ∈ invoked (effects st))
  ∧ Forall (λ op, Some op ∈ operations
                  ∧ Forall (λ dep, dep ∈ executed st
                                   ∨ dep ∉ (name <$> omap id operations))
                      (depends_on op)) rest.

(** The names of the operators whose call returned, in call order. *)
Definition returned_names (fx : Effects) : list string :=
  (filter (λ call, call.2 = true) (invoked fx)).*1.

(** Dependencies point backwards: a dependency that names a plan operator
    names one that stands earlier in the plan. *)
Definition backward_deps (plan : list SearchOperation) : Prop :=
  ∀ i op dep,
    plan !! i = Some op → dep ∈ depends_on op → dep ∈ (name <$> plan) →
    dep ∈ (name <$> take i plan).

(** The "cannot execute remaining operations" warning was never logged. *)
Definition warning_free (fx : Effects) : Prop :=
  ∀ remaining, LogWarning remaining ∉ logged fx.

(** The world [env] with another answer to "does this publish raise?". *)
Definition with_publish_raises (raises : Event → bool) (env : Env) : Env :=
  {| publish_raises := raises;
     track_event_raises := track_event_raises env;
     clock_total_ms := clock_total_ms env;
     clock_duration_ms := clock_duration_ms env |}.

(** Two effect records that differ at most in what was delivered. *)
Definition same_but_delivery (fx1 fx2 : Effects) : Prop :=
  global_sequence fx1 = global_sequence fx2
  ∧ op_sequences fx1 = op_sequences fx2
  ∧ published fx1 = published fx2
  ∧ logged fx1 = logged fx2
  ∧ tracked fx1 = tracked fx2
  ∧ invoked fx1 = invoked fx2.

Definition same_state_but_delivery (st1 st2 : LoopState) : Prop :=
  context st1 = context st2 ∧ executed st1 = executed st2
  ∧ same_but_delivery (effects st1) (effects st2).

(** The (operator, milliseconds) pairs reported by the [operator_end]
    frames of a stream, in order. *)
Definition end_reports (evs : list Event) : list (string * Z) :=
  omap (λ e, match ev_data e with
             | DOperatorEnd nm ms => Some (nm, ms)
             | _ => None
             end) evs.

Definition reports_inv (rest : list SearchOperation) (st : LoopState) : Prop :=
  ctx_timings (context st) = end_reports (published (effects st))
  ∧ timings_inv rest st.

(** ** The context-aware analytics service
       (backend/airweave/analytics/contextual_service.py)

    Property dictionaries are finite maps from keys to values; what the
    service does is the call it makes to the base analytics service. *)

Module ContextualAnalytics.

Inductive Value :=
| VStr (s : string)
| VNum (n : Z).

Record RequestHeaders := {
  user_agent : option string;
  client_name : option string;
  client_version : option string;
  session_id : option string;
  sdk_name : option string;
  sdk_version : option string;
  framework_name : option string;
  framework_version : option string;
  request_id : option string
}.

(** [dataclasses.asdict(self)], in field order. *)
Definition asdict (h : RequestHeaders) : list (string * option string) :=
  [("user_agent", user_agent h); ("client_name", client_name h);
   ("client_version", client_version h); ("session_id", session_id h);
   ("sdk_name", sdk_name h); ("sdk_version", sdk_version h);
   ("framework_name", framework_name h);
   ("framework_version", framework_version h);
   ("request_id", request_id h)].

(** [{k: v for k, v in asdict(self).items() if v is not None}] *)
Definition to_dict (h : RequestHeaders) : gmap string Value :=
  list_to_map (omap (λ kv, (λ v, (kv.1, VStr v)) <$> kv.2) (asdict h)).

(** The part of [ApiContext] this service reads. *)
Record RequestContext := {
  auth_method : string;
  organization_name : string;
  context_request_id : string;
  user : option string;          (* str(context.user.id) when there is a user *)
  organization_id : string
}.

Record ContextualAnalyticsService := {
  context : RequestContext;
  headers : RequestHeaders
}.

(** A call [base_service.track_event(event_name, distinct_id, properties,
    groups)]. *)
Record Capture := {
  event_name : string;
  distinct_id : string;
  properties : gmap string Value;
  groups : gmap string string
}.

(** The dictionary literal of [_build_base_properties]. *)
Definition context_properties (c : RequestContext) : gmap string Value :=
  {[ "auth_method" := VStr (auth_method c);
     "organization_name" := VStr (organization_name c);
     "request_id" := VStr (context_request_id c) ]}.

(** [properties.update(self.headers.to_dict())]: the header entries win. *)
Definition _build_base_properties (s : ContextualAnalyticsService)
  : gmap string Value :=
  to_dict (headers s) ∪ context_properties (context s).

Definition _get_distinct_id (s : ContextualAnalyticsService) : string :=
  match user (context s) with
  | Some uid => uid
  | None => "api_key_" +:+ organization_id (context s)
  end.

Definition _get_groups (s : ContextualAnalyticsService) : gmap string string :=
  {[ "organization" := organization_id (context s) ]}.

(** [if properties: event_properties.update(properties)] *)
Definition track_event (s : ContextualAnalyticsService) (nm : string)
    (props : option (gmap string Value)) : Capture :=
  let event_properties := _build_base_properties s in
  let event_properties :=
    match props with
    | Some p => if decide (p = ∅) then event_properties
                else p ∪ event_properties
    | None => event_properties
    end in
  {| event_name := nm; distinct_id := _get_distinct_id s;
     properties := event_properties; groups := _get_groups s |}.

Definition track_api_call (s : ContextualAnalyticsService) (endpoint : string)
    (duration_ms : option Z) (status_code : Z) (error : option string)
  : Capture :=
  let props : gmap string Value :=
    {[ "endpoint" := VStr endpoint; "status_code" := VNum status_code ]} in
  let props :=
    match duration_ms with
    | Some d => <["duration_ms" := VNum d]> props
    | None => props
    end in
  let props :=
    match error with
    | Some e => if truthy error then <["error" := VStr e]> props else props
    | None => props
    end in
  let event_suffix := if truthy error then "_error" else "" in
  track_event s ("api_call" +:+ event_suffix) (Some props).

Definition track_search_query (s : ContextualAnalyticsService)
    (q collection : string) (duration_ms : Z) (kind : string)
    (results_count : option Z) (outcome_status : string) : Capture :=
  let props : gmap string Value :=
    {[ "query_length" := VNum (Z.of_nat (String.length q));
       "collection_slug" := VStr collection;
       "duration_ms" := VNum duration_ms;
       "search_type" := VStr kind;
       "status" := VStr outcome_status ]} in
  let props :=
    match results_count with
    | Some n => <["results_count" := VNum n]> props
    | None => props
    end in
  track_event s "search_query" (Some props).

End ContextualAnalytics.

(** A service whose request carries an SDK name and a request-id header. *)
Module ContextualScenarios.
Import ContextualAnalytics.

Definition sample_headers : RequestHeaders :=
  {| user_agent := None; client_name := None; client_version := None;
     session_id := None; sdk_name := Some "python"; sdk_version := None;
     framework_name := None; framework_version := None;
     request_id := Some "hdr-7" |}.

Definition sample_service : ContextualAnalyticsService :=
  {| context := {| auth_method := "api_key"; organization_name := "Acme";
                   context_request_id := "ctx-1"; user := None;
                   organization_id := "org-1" |};
     headers := sample_headers |}.

End ContextualScenarios.

(** ** Business events
       (backend/airweave/analytics/events/business_events.py)

    Each tracker of [BusinessEventTracker] builds a property dictionary and
    makes one call [analytics.track_event(...)]; the functions below return
    that call.  Identifiers are the strings [str(...)] makes of them. *)

Module BusinessEvents.

(** [str(ctx.user.id) if ctx.user else f"api_key_{ctx.organization.id}"] *)
Definition event_distinct_id (ctx : ApiContext) : string :=
  match user_id ctx with
  | Some uid => uid
  | None => "api_key_" +:+ organization_id ctx
  end.

(** [{"organization": str(ctx.organization.id)}] *)
Definition event_groups (ctx : ApiContext) : gmap string string :=
  {[ "organization" := organization_id ctx ]}.

(** [getattr(ctx.organization, "name", "unknown")] *)
Definition organization_label (ctx : ApiContext) : ContextualAnalytics.Value :=
  ContextualAnalytics.VStr (default "unknown" (organization_name ctx)).

Definition track_source_connection_created (ctx : ApiContext)
    (connection_id source_short_name : string) : ContextualAnalytics.Capture :=
  {| ContextualAnalytics.event_name := "source_connection_created";
     ContextualAnalytics.distinct_id := event_distinct_id ctx;
     ContextualAnalytics.properties :=
       {[ "connection_id" := ContextualAnalytics.VStr connection_id;
          "source_type" := ContextualAnalytics.VStr source_short_name;
          "organization_name" := organization_label ctx ]};
     ContextualAnalytics.groups := event_groups ctx |}.

Definition track_sync_started (ctx : ApiContext)
    (sync_id source_type collection_id : string)
  : ContextualAnalytics.Capture :=
  {| ContextualAnalytics.event_name := "sync_started";
     ContextualAnalytics.distinct_id := event_distinct_id ctx;
     ContextualAnalytics.properties :=
       {[ "sync_id" := ContextualAnalytics.VStr sync_id;
          "source_type" := ContextualAnalytics.VStr source_type;
          "collection_id" := ContextualAnalytics.VStr collection_id;
          "organization_name" := organization_label ctx ]};
     ContextualAnalytics.groups := event_groups ctx |}.

Definition track_sync_completed (ctx : ApiContext) (sync_id : string)
    (entities_processed elapsed_ms : Z) : ContextualAnalytics.Capture :=
  {| ContextualAnalytics.event_name := "sync_completed";
     ContextualAnalytics.distinct_id := event_distinct_id ctx;
     ContextualAnalytics.properties :=
       {[ "sync_id" := ContextualAnalytics.VStr sync_id;
          "entities_processed" := ContextualAnalytics.VNum entities_processed;
          "duration_ms" := ContextualAnalytics.VNum elapsed_ms;
          "organization_name" := organization_label ctx ]};
     ContextualAnalytics.groups := event_groups ctx |}.

Definition track_sync_failed (ctx : ApiContext) (sync_id error : string)
    (elapsed_ms : Z) : ContextualAnalytics.Capture :=
  {| ContextualAnalytics.event_name := "sync_failed";
     ContextualAnalytics.distinct_id := event_distinct_id ctx;
     ContextualAnalytics.properties :=
       {[ "sync_id" := ContextualAnalytics.VStr sync_id;
          "error" := ContextualAnalytics.VStr error;
          "duration_ms" := ContextualAnalytics.VNum elapsed_ms;
          "organization_name" := organization_label ctx ]};
     ContextualAnalytics.groups := event_groups ctx |}.

Definition track_sync_cancelled (ctx : ApiContext)
    (source_short_name source_connection_id : string) (elapsed_ms : Z)
  : ContextualAnalytics.Capture :=
  {| ContextualAnalytics.event_name := "sync_cancelled";
     ContextualAnalytics.distinct_id := event_distinct_id ctx;
     ContextualAnalytics.properties :=
       {[ "source_short_name" := ContextualAnalytics.VStr source_short_name;
          "source_connection_id"
            := ContextualAnalytics.VStr source_connection_id;
          "organization_name" := organization_label ctx;
          "duration_ms" := ContextualAnalytics.VNum elapsed_ms ]};
     ContextualAnalytics.groups := event_groups ctx |}.

(** One call [analytics.set_group_properties(group_type, group_key,
    properties)]. *)
Record GroupUpdate := {
  group_type : string;
  group_key : string;
  group_properties : gmap string ContextualAnalytics.Value
}.

(** [org_properties = {"organization_id": str(organization_id),
    **properties}]: the entries of [properties] are written last and win. *)
Definition set_organization_properties (org_id : string)
    (props : gmap string ContextualAnalytics.Value) : GroupUpdate :=
  {| group_type := "organization";
     group_key := org_id;
     group_properties :=
       props ∪ {[ "organization_id" := ContextualAnalytics.VStr org_id ]} |}.

End BusinessEvents.

(** * Properties *)

(** ** The dependency scheduler on a well-formed plan *)

Lemma operation_exists_plan (plan : list SearchOperation) (nm : string) :
  _operation_exists (Some <$> plan) nm
  = inr (bool_decide (nm ∈ (name <$> plan))).
Proof.
  induction plan as [|op plan IH]; csimpl; [done|].
  - destruct (decide (name op = nm)) as [Heq|Hne].
    + rewrite bool_decide_eq_true_2 by done.
      rewrite bool_decide_eq_true_2; [done|]. rewrite Heq. apply list_elem_of_here.
    + rewrite bool_decide_eq_false_2 by done. rewrite IH. f_equal.
      apply bool_decide_ext. rewrite elem_of_cons. naive_solver.
Qed.

Lemma deps_satisfied_plan (plan : list SearchOperation) (done : gset string)
    (deps : list string) :
  deps_satisfied (Some <$> plan) done deps
  = inr (bool_decide
           (Forall (λ dep, dep ∈ done ∨ dep ∉ (name <$> plan)) deps)).
Proof.
  induction deps as [|dep deps IH]; csimpl; [done|].
  - destruct (decide (dep ∈ done)) as [Hin|Hout].
    + rewrite bool_decide_eq_true_2 by done. rewrite IH. f_equal.
      apply bool_decide_ext. rewrite Forall_cons. naive_solver.
    + rewrite bool_decide_eq_false_2 by done.
      rewrite operation_exists_plan.
      unfold mbind, raising_bind, mret, raising_ret.
      destruct (decide (dep ∈ name <$> plan)) as [Hex|Hab].
      * rewrite bool_decide_eq_true_2 by done.
        rewrite bool_decide_eq_false_2; [done|].
        rewrite Forall_cons. naive_solver.
      * rewrite bool_decide_eq_false_2 by done. rewrite IH. f_equal.
        apply bool_decide_ext. rewrite Forall_cons. naive_solver.
Qed.

Lemma find_ready_loop_plan (plan todo : list SearchOperation)
    (done : gset string) :
  find_ready_loop (Some <$> plan) done (Some <$> todo)
  = inr (filter (ready_spec plan done) todo).
Proof.
  induction todo as [|op todo IH]; csimpl; [done|].
  destruct (decide (name op ∈ done)) as [Hin|Hout].
  - rewrite bool_decide_eq_true_2 by done. rewrite IH.
    rewrite filter_cons_False; [done|]. unfold ready_spec. naive_solver.
  - rewrite bool_decide_eq_false_2 by done.
    rewrite deps_satisfied_plan, IH.
    unfold mbind, raising_bind, mret, raising_ret.
    case_bool_decide as Hdeps.
    + rewrite filter_cons_True; [done|]. by split.
    + rewrite filter_cons_False; [done|]. unfold ready_spec. naive_solver.
Qed.

(** C5: on every plan and every set of executed names the scheduler returns
    exactly the operators that are not yet executed and whose dependencies
    are all executed or absent from the plan, in plan order; in particular
    an unexecuted operator all of whose dependencies are absent is returned. *)
Theorem find_ready_operations_exact (plan : list SearchOperation)
    (done : gset string) :
  _find_ready_operations (Some <$> plan) done
  = inr (filter (ready_spec plan done) plan)
  ∧ (∀ op, op ∈ plan → name op ∉ done →
       Forall (λ dep, dep ∉ (name <$> plan)) (depends_on op) →
       op ∈ filter (ready_spec plan done) plan).
Proof.
  split.
  - apply find_ready_loop_plan.
  - intros op Hop Hnew Habsent. apply list_elem_of_filter. split; [|done].
    split; [done|]. eapply Forall_impl; [exact Habsent|]. naive_solver.
Qed.

(** What the scheduler hands out is a sub-list of the plan, in plan order,
    none of it executed yet; when it raises, it is on a null plan entry. *)
Lemma find_ready_loop_sound operations done todo ready :
  find_ready_loop operations done todo = inr ready →
  ready `sublist_of` omap id todo ∧ Forall (λ op, name op ∉ done) ready.
Proof.
  revert ready. induction todo as [|[op|] todo IH]; intros ready; csimpl.
  - intros [= <-]. split; [constructor|constructor].
  - case_bool_decide as Hin.
    + intros Hrest. destruct (IH _ Hrest) as [Hsub Hall].
      split; [by apply sublist_cons|done].
    + destruct (deps_satisfied operations done (depends_on op)) as [e|ok];
        csimpl; [done|].
      destruct (find_ready_loop operations done todo) as [e|rest];
        csimpl; [done|].
      destruct (IH rest eq_refl) as [Hsub Hall].
      intros [= <-]. destruct ok.
      * split; [by apply sublist_skip|by constructor].
      * split; [by apply sublist_cons|done].
  - done.
Qed.

Lemma operation_exists_raises operations nm e :
  _operation_exists operations nm = inl e → e = AttributeError.
Proof.
  induction operations as [|[op|] operations IH]; csimpl; try done.
  - case_bool_decide; [done|apply IH].
  - by intros [= <-].
Qed.

Lemma deps_satisfied_raises operations done deps e :
  deps_satisfied operations done deps = inl e → e = AttributeError.
Proof.
  induction deps as [|dep deps IH]; csimpl; [done|].
  case_bool_decide; [apply IH|].
  destruct (_operation_exists operations dep) as [e'|[]] eqn:Hex; csimpl.
  - intros [= <-]. by eapply operation_exists_raises.
  - done.
  - apply IH.
Qed.

Lemma find_ready_loop_raises operations done todo e :
  find_ready_loop operations done todo = inl e → e = AttributeError.
Proof.
  induction todo as [|[op|] todo IH]; csimpl; try done.
  - case_bool_decide; [apply IH|].
    destruct (deps_satisfied operations done (depends_on op)) as [e'|ok] eqn:Hd;
      csimpl.
    + intros [= <-]. by eapply deps_satisfied_raises.
    + destruct (find_ready_loop operations done todo) as [e'|rest];
        csimpl; [|done].
      intros [= <-]. by apply IH.
  - by intros [= <-].
Qed.

Lemma remaining_names_raises operations done e :
  remaining_names operations done = inl e → e = AttributeError.
Proof.
  induction operations as [|[op|] operations IH]; csimpl; try done.
  - destruct (remaining_names operations done) as [e'|names]; csimpl; [|done].
    intros [= <-]. by apply IH.
  - by intros [= <-].
Qed.

Lemma run_operation_raises env rid op st st' e :
  run_operation env rid op st = (st', Some e) →
  ∃ message, out_raised (op_execute op (context st)) = Some message
             ∧ e = OperatorError message.
Proof.
  unfold run_operation.
  destruct (out_raised (op_execute op (context st))) as [message|]; [|done].
  intros [= _ <-]. by exists message.
Qed.

Lemma run_ready_raises env rid ready st st' e :
  run_ready env rid ready st = (st', Some e) → ∃ message, e = OperatorError message.
Proof.
  revert st. induction ready as [|op rest IH]; intros st; simpl; [done|].
  destruct (run_operation env rid op st) as [st1 [e1|]] eqn:Hop; [|apply IH].
  intros [= _ <-].
  destruct (run_operation_raises _ _ _ _ _ _ Hop) as (message & _ & ->).
  by exists message.
Qed.

(** ** A proof rule for the scheduler loop

    [I rest st] is an invariant of the loop state while [rest] is what is
    left of the current batch ([I [] st] between batches); [F e st] is what
    holds when an operator has raised [e]. *)
Section LoopRule.
Variable env : Env.
Variable request_id : option string.
Variable operations : list (option SearchOperation).
Variable I : list SearchOperation → LoopState → Prop.
Variable F : Exn → LoopState → Prop.

Hypothesis batch_start : ∀ st ready,
  I [] st → _find_ready_operations operations (executed st) = inr ready →
  I ready st.
Hypothesis operator_returns : ∀ op rest st st',
  I (op :: rest) st → run_operation env request_id op st = (st', None) →
  I rest st'.
Hypothesis operator_raises : ∀ op rest st st' e,
  I (op :: rest) st → run_operation env request_id op st = (st', Some e) →
  F e st'.
Hypothesis warning_logged : ∀ st remaining,
  I [] st → I [] (with_effects (log (LogWarning remaining) (effects st)) st).

Lemma run_ready_rule ready st st' r :
  I ready st → run_ready env request_id ready st = (st', r) →
  match r with
  | None => I [] st'
  | Some e => F e st'
  end.
Proof.
  revert st. induction ready as [|op rest IH]; intros st HI; simpl.
  - by intros [= <- <-].
  - destruct (run_operation env request_id op st) as [st1 [e|]] eqn:Hop.
    + intros [= <- <-]. by eapply operator_raises.
    + apply IH. by eapply operator_returns.
Qed.

Lemma scheduler_loop_rule fuel st st' ex :
  I [] st → scheduler_loop env request_id fuel operations st = (st', ex) →
  match ex with
  | Raised (OperatorError message) => F (OperatorError message) st'
  | _ => I [] st'
  end.
Proof.
  revert st. induction fuel as [|fuel IH]; intros st HI; simpl.
  - case_bool_decide; by intros [= <- <-].
  - case_bool_decide; [|by intros [= <- <-]].
    destruct (_find_ready_operations operations (executed st))
      as [e|ready] eqn:Hready.
    + intros [= <- <-].
      by rewrite (find_ready_loop_raises _ _ _ _ Hready).
    + destruct ready as [|op ready].
      * destruct (remaining_names operations (executed st))
          as [e|remaining] eqn:Hrem.
        -- intros [= <- <-].
           by rewrite (remaining_names_raises _ _ _ Hrem).
        -- intros [= <- <-]. by apply warning_logged.
      * destruct (run_ready env request_id (op :: ready) st)
          as [st1 [e|]] eqn:Hrun.
        -- intros [= <- <-].
           pose proof (run_ready_rule _ _ _ _ (batch_start _ _ HI Hready) Hrun)
             as HF.
           destruct (run_ready_raises _ _ _ _ _ _ Hrun) as [m ->]. exact HF.
        -- intros Hloop. eapply IH; [|exact Hloop].
           by apply (run_ready_rule _ _ _ _ (batch_start _ _ HI Hready) Hrun).
Qed.

End LoopRule.

(** ** Termination of the scheduler loop *)

Lemma run_operation_executed env rid op st st' r :
  run_operation env rid op st = (st', r) →
  executed st' = match r with
                 | None => {[name op]} ∪ executed st
                 | Some _ => executed st
                 end.
Proof.
  unfold run_operation.
  destruct (out_raised (op_execute op (context st))); by intros [= <- <-].
Qed.

Lemma run_ready_executed env rid ready st st' :
  run_ready env rid ready st = (st', None) →
  executed st' = list_to_set (name <$> ready) ∪ executed st.
Proof.
  revert st. induction ready as [|op rest IH]; intros st; csimpl.
  - intros [= <-]. set_solver.
  - destruct (run_operation env rid op st) as [st1 [e|]] eqn:Hop; [done|].
    intros Hrest. rewrite (IH _ Hrest).
    rewrite (run_operation_executed _ _ _ _ _ _ Hop). set_solver.
Qed.

(** A batch that runs to its end executes at least one new operator. *)
Lemma batch_progress env rid operations st op ready st' :
  _find_ready_operations operations (executed st) = inr (op :: ready) →
  run_ready env rid (op :: ready) st = (st', None) →
  S (size (executed st)) ≤ size (executed st').
Proof.
  intros Hready Hrun.
  destruct (find_ready_loop_sound _ _ _ _ Hready) as [_ Hnew].
  apply Forall_cons in Hnew as [Hnew _].
  rewrite (run_ready_executed _ _ _ _ _ Hrun).
  transitivity (size ({[name op]} ∪ executed st)).
  - rewrite size_union by set_solver. by rewrite size_singleton.
  - apply subseteq_size. set_solver.
Qed.

(** The loop needs no more iterations than there are operators left. *)
Lemma scheduler_loop_fuel env rid fuel operations st :
  length operations ≤ size (executed st) + fuel →
  (scheduler_loop env rid fuel operations st).2 ≠ OutOfFuel.
Proof.
  revert st. induction fuel as [|fuel IH]; intros st Hfuel; simpl.
  - case_bool_decide; [lia|done].
  - case_bool_decide; [|done].
    destruct (_find_ready_operations operations (executed st))
      as [e|[|op ready]] eqn:Hready; [done| |].
    + by destruct (remaining_names operations (executed st)).
    + destruct (run_ready env rid (op :: ready) st) as [st1 [e|]] eqn:Hrun;
        [done|].
      apply IH. pose proof (batch_progress _ _ _ _ _ _ _ Hready Hrun). lia.
Qed.

Lemma execute_cases env rid config ctx :
  let operations := _extract_operations_from_config config in
  ∃ st ex,
    scheduler_loop env rid (length operations) operations
      (initial_state env rid config) = (st, ex)
    ∧ match ex with
      | Finished =>
          execute env rid config ctx
          = cleanup env rid ctx
              (finalize_and_report env rid (length operations) st) None
      | Raised e => execute env rid config ctx = cleanup env rid ctx st (Some e)
      | OutOfFuel => False
      end.
Proof.
  intros operations. unfold execute. fold operations.
  assert ((scheduler_loop env rid (length operations) operations
             (initial_state env rid config)).2 ≠ OutOfFuel) as Hfuel.
  { apply scheduler_loop_fuel. cbn [executed initial_state].
    rewrite size_empty. lia. }
  destruct (scheduler_loop env rid (length operations) operations
              (initial_state env rid config)) as [st ex].
  exists st, ex. split; [done|]. by destruct ex.
Qed.

(** [execute] is total: it returns or raises. *)
Lemma execute_terminates env rid config ctx :
  outcome (execute env rid config ctx) ≠ Diverges.
Proof.
  destruct (execute_cases env rid config ctx) as (st & ex & _ & Hex).
  destruct ex; [| |done]; rewrite Hex; unfold cleanup; by case_match.
Qed.

(** ** The emitter *)

Lemma emit_off env rid t d o fx :
  truthy rid = false → emit env rid t d o fx = fx.
Proof. intros Hoff. unfold emit. by rewrite Hoff. Qed.

Lemma emit_on env rid t d o fx :
  truthy rid = true →
  ∃ e, published (emit env rid t d o fx) = published fx ++ [e]
       ∧ ev_type e = t ∧ ev_op e = o ∧ ev_data e = d
       ∧ ev_seq e = S (global_sequence fx)
       ∧ global_sequence (emit env rid t d o fx) = S (global_sequence fx).
Proof. intros Hon. unfold emit. rewrite Hon. simpl. eauto 10. Qed.

Lemma emit_tracked env rid t d o fx :
  tracked (emit env rid t d o fx) = tracked fx.
Proof. unfold emit. by destruct (truthy rid). Qed.

Lemma emit_invoked env rid t d o fx :
  invoked (emit env rid t d o fx) = invoked fx.
Proof. unfold emit. by destruct (truthy rid). Qed.

Lemma emit_logged env rid t d o fx :
  logged (emit env rid t d o fx) = logged fx.
Proof. unfold emit. by destruct (truthy rid). Qed.

Lemma emit_calls_tracked env rid calls fx :
  tracked (emit_calls env rid calls fx) = tracked fx.
Proof.
  revert fx. induction calls as [|c calls IH]; intros fx; [done|].
  unfold emit_calls in *. simpl. by rewrite IH, emit_tracked.
Qed.

Lemma emit_calls_invoked env rid calls fx :
  invoked (emit_calls env rid calls fx) = invoked fx.
Proof.
  revert fx. induction calls as [|c calls IH]; intros fx; [done|].
  unfold emit_calls in *. simpl. by rewrite IH, emit_invoked.
Qed.

Lemma emit_calls_logged env rid calls fx :
  logged (emit_calls env rid calls fx) = logged fx.
Proof.
  revert fx. induction calls as [|c calls IH]; intros fx; [done|].
  unfold emit_calls in *. simpl. by rewrite IH, emit_logged.
Qed.

Lemma stable_emit_calls P env rid calls fx :
  emit_stable P → P fx → P (emit_calls env rid calls fx).
Proof.
  intros (Hemit & _ & _). revert fx.
  induction calls as [|c calls IH]; intros fx HP; [done|].
  unfold emit_calls in *. simpl. apply IH. by apply Hemit.
Qed.

Lemma stable_run_operation P env rid op st st' r :
  emit_stable P → P (effects st) →
  run_operation env rid op st = (st', r) → P (effects st').
Proof.
  intros Hst HP. pose proof Hst as (Hemit & Hlog & Hinv).
  unfold run_operation.
  destruct (out_raised (op_execute op (context st))); intros [= <- <-]; simpl.
  - apply Hemit, Hlog, Hinv, stable_emit_calls, Hemit; done.
  - apply Hlog, Hemit, Hlog, Hinv, stable_emit_calls, Hemit; done.
Qed.

Lemma stable_scheduler_loop P env rid fuel operations st st' ex :
  emit_stable P → P (effects st) →
  scheduler_loop env rid fuel operations st = (st', ex) → P (effects st').
Proof.
  intros Hst HP Hloop.
  pose proof (scheduler_loop_rule env rid operations
                (λ _ s, P (effects s)) (λ _ s, P (effects s))) as Hrule.
  cut (match ex with
       | Raised (OperatorError _) => P (effects st')
       | _ => P (effects st')
       end).
  { by destruct ex as [|[]|]. }
  eapply Hrule; [| | | |exact HP|exact Hloop]; simpl.
  - done.
  - intros ????. by apply stable_run_operation.
  - intros ?????. by apply stable_run_operation.
  - intros ?? HP'. by apply Hst.
Qed.

Lemma stable_finalize_and_report P env rid n st :
  emit_stable P → P (effects st) →
  P (effects (finalize_and_report env rid n st)).
Proof.
  intros (Hemit & Hlog & _) HP. unfold finalize_and_report. simpl.
  by apply Hemit, Hlog, Hemit.
Qed.

Lemma stable_initial_state P env rid config :
  emit_stable P → P no_effects → P (effects (initial_state env rid config)).
Proof.
  intros (Hemit & Hlog & _) HP. unfold initial_state. simpl.
  by apply Hemit, Hlog.
Qed.

(** *** Sequence numbers *)

Lemma dense_stable : emit_stable dense.
Proof.
  split; [|done]. intros env rid t d o fx Hd.
  destruct (truthy rid) eqn:Hrid; [|by rewrite emit_off].
  destruct (emit_on env rid t d o fx Hrid) as (e & Hpub & _ & _ & _ & Hseq & Hg).
  unfold dense. rewrite Hpub, Hg, fmap_app, Hd, seq_S. simpl. by rewrite Hseq.
Qed.

Lemma opens_with_start_stable : emit_stable opens_with_start.
Proof.
  split; [|done]. intros env rid t d o fx (first & rest & Hpub & Hty).
  destruct (truthy rid) eqn:Hrid; [|rewrite emit_off by done; by exists first, rest].
  destruct (emit_on env rid t d o fx Hrid) as (e & Hpub' & _).
  exists first, (rest ++ [e]). by rewrite Hpub', Hpub.
Qed.

Lemma initial_state_opens env rid config :
  truthy rid = true → opens_with_start (effects (initial_state env rid config)).
Proof.
  intros Hrid. unfold initial_state. cbn [effects].
  match goal with
  | |- opens_with_start (emit ?e ?r ?t ?d ?o ?fx) =>
      destruct (emit_on e r t d o fx Hrid) as (ev & Hpub & Hty & _)
  end.
  exists ev, []. by rewrite Hpub.
Qed.

(** The stream at the entry of the cleanup block, on either path. *)
Lemma stream_before_cleanup (P : Effects → Prop) env rid config :
  emit_stable P → P (effects (initial_state env rid config)) →
  let operations := _extract_operations_from_config config in
  ∀ st ex,
    scheduler_loop env rid (length operations) operations
      (initial_state env rid config) = (st, ex) →
    P (effects st)
    ∧ P (effects (finalize_and_report env rid (length operations) st)).
Proof.
  intros Hst HP operations st ex Hloop.
  assert (P (effects st)) by (by eapply stable_scheduler_loop).
  split; [done|]. by apply stable_finalize_and_report.
Qed.

Lemma cleanup_keeps_stream (P : Effects → Prop) env rid ctx st pending :
  emit_stable P → (∀ ev fx, P fx → P (track ev fx)) →
  P (effects st) → P (run_effects (cleanup env rid ctx st pending)).
Proof.
  intros (Hemit & _ & _) Htrack HP. unfold cleanup.
  destruct (track_event_raises env _); cbn [run_effects].
  - by apply Htrack.
  - by apply Hemit, Htrack.
Qed.

Lemma cleanup_closes_stream env rid ctx st pending :
  truthy rid = true → (∀ ev, track_event_raises env ev = false) →
  ∃ before last,
    published (run_effects (cleanup env rid ctx st pending)) = before ++ [last]
    ∧ ev_type last = "done".
Proof.
  intros Hrid Hsink. unfold cleanup. rewrite Hsink. cbn [run_effects].
  match goal with
  | |- context [emit ?e ?r ?t ?d ?o ?fx] =>
      destruct (emit_on e r t d o fx Hrid) as (ev & Hpub & Hty & _)
  end.
  eauto.
Qed.

(** The frames that reached the channel are a sub-sequence of the frames
    handed to the publisher; a publish that raises leaves a hole. *)
Lemma delivered_stable :
  emit_stable (λ fx, delivered fx `sublist_of` published fx).
Proof.
  split; [|done]. intros env rid t d o fx Hsub. unfold emit.
  destruct (truthy rid); cbn [negb published delivered]; [|done].
  destruct (publish_raises env _).
  - by apply sublist_inserts_r.
  - by apply sublist_app.
Qed.


(** ** The analytics hook *)

Lemma untracked_stable : emit_stable untracked.
Proof.
  split; [|done]. intros env rid t d o fx. unfold untracked.
  by rewrite emit_tracked.
Qed.

Lemma cleanup_tracked env rid ctx st pending :
  untracked (effects st) →
  tracked (run_effects (cleanup env rid ctx st pending))
  = [search_query_event env rid ctx
       (final_context (cleanup env rid ctx st pending))].
Proof.
  unfold untracked, cleanup. intros Hnone.
  destruct (track_event_raises env _); cbn [run_effects final_context].
  - cbn [track tracked]. by rewrite Hnone.
  - rewrite emit_tracked. cbn [track tracked]. by rewrite Hnone.
Qed.

(** The only call to the analytics service is the one of the cleanup block,
    with the properties read off the context as it then stands. *)
Lemma execute_tracked env rid config ctx :
  tracked (run_effects (execute env rid config ctx))
  = [search_query_event env rid ctx
       (final_context (execute env rid config ctx))].
Proof.
  destruct (execute_cases env rid config ctx) as (st & ex & Hloop & Hex).
  assert (untracked (effects (initial_state env rid config))) as H0.
  { by apply stable_initial_state; [apply untracked_stable|]. }
  destruct (stream_before_cleanup untracked env rid config untracked_stable H0
              st ex Hloop) as [Hst Hfin].
  destruct ex as [|e|]; [| |done]; rewrite Hex; by apply cleanup_tracked.
Qed.

(** C8: every invocation of [execute], whether it returns or raises, makes
    exactly one call to the analytics service, and that call records a
    [search_query] event. *)
Theorem analytics_exactly_once env rid config ctx :
  ∃ ev,
    tracked (run_effects (execute env rid config ctx)) = [ev]
    ∧ event_name ev = "search_query"
    ∧ outcome (execute env rid config ctx) ≠ Diverges.
Proof.
  eexists. split; [apply execute_tracked|]. split; [done|].
  apply execute_terminates.
Qed.

(** C10: the recorded properties carry [results_count] exactly when the
    context holds a non-empty [final_results] at the time of the cleanup
    block, and then it is its length; a run that ends with an empty
    [final_results] records no [results_count] at all. *)
Theorem results_count_iff_nonempty env rid config ctx :
  ∃ ev,
    tracked (run_effects (execute env rid config ctx)) = [ev]
    ∧ (is_Some (results_count (properties ev))
       ↔ ∃ hits, ctx_final_results
                   (final_context (execute env rid config ctx)) = Some hits
                 ∧ hits ≠ [])
    ∧ (∀ hits, ctx_final_results
                 (final_context (execute env rid config ctx)) = Some hits →
               results_count (properties ev)
               = if decide (hits = []) then None else Some (length hits)).
Proof.
  eexists. split; [apply execute_tracked|].
  cbn [search_query_event properties search_properties results_count].
  destruct (ctx_final_results (final_context (execute env rid config ctx)))
    as [[|hit hits]|]; (split; [split|]).
  - by intros [? ?].
  - by intros (? & [= <-] & ?).
  - by intros ? [= <-].
  - intros _. by eexists.
  - done.
  - by intros ? [= <-].
  - by intros [? ?].
  - by intros (? & ? & ?).
  - done.
Qed.

(** ** Finalization *)

Lemma sum_values_foldr (d : list (string * Z)) :
  sum_values d = foldr Z.add 0%Z d.*2.
Proof.
  unfold sum_values.
  cut (∀ acc, foldl (λ a kv, (a + kv.2)%Z) acc d
              = (acc + foldr Z.add 0 d.*2)%Z).
  { intros Hacc. by rewrite Hacc. }
  induction d as [|[k v] d IH]; intros acc; csimpl; [lia|].
  rewrite IH. lia.
Qed.

(** How [execute] can return: the loop ended without an exception, the
    context was finalized, and the analytics call returned. *)
Lemma execute_returns env rid config ctx c :
  outcome (execute env rid config ctx) = Returns c →
  let operations := _extract_operations_from_config config in
  ∃ st,
    scheduler_loop env rid (length operations) operations
      (initial_state env rid config) = (st, Finished)
    ∧ c = _finalize_context (context st)
    ∧ final_context (execute env rid config ctx) = c.
Proof.
  intros Hret operations.
  destruct (execute_cases env rid config ctx) as (st & ex & Hloop & Hex).
  fold operations in Hloop, Hex.
  destruct ex as [|e|]; [| |done]; rewrite Hex in Hret |- *;
    unfold cleanup in Hret |- *;
    destruct (track_event_raises env _); try done;
    cbn [outcome final_context] in Hret |- *.
  injection Hret as <-. by exists st.
Qed.

(** C7: on the path without exception the returned context is the finalized
    loop context: [final_results] is kept when present, else it is
    [raw_results], else the empty list; and [execution_summary] counts the
    entries of [timings], sums their values and counts [errors]. *)
Theorem finalization_guarantees env rid config ctx c :
  outcome (execute env rid config ctx) = Returns c →
  let operations := _extract_operations_from_config config in
  ∃ st,
    scheduler_loop env rid (length operations) operations
      (initial_state env rid config) = (st, Finished)
    ∧ ctx_final_results c
      = Some (match ctx_final_results (context st), ctx_raw_results (context st) with
              | Some final, _ => final
              | None, Some raw => raw
              | None, None => []
              end)
    ∧ ctx_execution_summary c
      = Some {| operations_executed := length (ctx_timings (context st));
                total_time_ms := foldr Z.add 0%Z (ctx_timings (context st)).*2;
                errors_count := length (ctx_errors (context st)) |}
    ∧ ctx_timings c = ctx_timings (context st)
    ∧ ctx_errors c = ctx_errors (context st)
    ∧ ctx_raw_results c = ctx_raw_results (context st).
Proof.
  intros Hret operations.
  destruct (execute_returns _ _ _ _ _ Hret) as (st & Hloop & -> & _).
  exists st. split; [done|].
  unfold _finalize_context. cbn. rewrite sum_values_foldr.
  by destruct (ctx_final_results (context st)), (ctx_raw_results (context st)).
Qed.

(** ** Operator failures *)

Lemma run_operation_returned env rid op st st' :
  run_operation env rid op st = (st', None) →
  out_raised (op_execute op (context st)) = None
  ∧ context st'
    = with_timing (name op) (out_ms (op_execute op (context st)))
        (out_context (op_execute op (context st)))
  ∧ invoked (effects st') = invoked (effects st) ++ [(name op, true)].
Proof.
  unfold run_operation.
  destruct (out_raised (op_execute op (context st))); [done|].
  intros [= <-]. cbn [context effects log invoked].
  rewrite emit_invoked. cbn [log invoked invoke].
  by rewrite emit_calls_invoked, emit_invoked.
Qed.

Lemma run_operation_failed env rid op st st' e :
  run_operation env rid op st = (st', Some e) →
  ∃ message,
    e = OperatorError message
    ∧ out_raised (op_execute op (context st)) = Some message
    ∧ context st'
      = with_error (name op) message (out_context (op_execute op (context st)))
    ∧ invoked (effects st') = invoked (effects st) ++ [(name op, false)]
    ∧ (truthy rid = true →
       ∃ before ev,
         published (effects st') = before ++ [ev]
         ∧ ev_type ev = "error" ∧ ev_op ev = Some (name op)
         ∧ ev_data ev = DError (name op) message).
Proof.
  unfold run_operation.
  destruct (out_raised (op_execute op (context st))) as [message|]; [|done].
  intros [= <- <-]. exists message. cbn [context effects].
  repeat split.
  - rewrite emit_invoked. cbn [log invoked invoke].
    by rewrite emit_calls_invoked, emit_invoked.
  - intros Hrid.
    match goal with
    | |- context [emit ?e ?r "error" ?d ?o ?fx] =>
        destruct (emit_on e r "error" d o fx Hrid)
          as (ev & Hpub & Hty & Hop & Hdata & _)
    end.
    eauto 10.
Qed.

Lemma scheduler_loop_failure env rid fuel operations st st' ex :
  all_returned (invoked (effects st)) →
  scheduler_loop env rid fuel operations st = (st', ex) →
  match ex with
  | Raised (OperatorError message) => failed_state rid (OperatorError message) st'
  | _ => all_returned (invoked (effects st'))
  end.
Proof.
  intros Hall Hloop.
  eapply (scheduler_loop_rule env rid operations
            (λ _ s, all_returned (invoked (effects s))) (failed_state rid));
    [| | | |exact Hall|exact Hloop]; cbn beta.
  - done.
  - intros op rest s s' Hs Hop.
    destruct (run_operation_returned _ _ _ _ _ Hop) as (_ & _ & ->).
    apply Forall_app. split; [done|]. by constructor.
  - intros op rest s s' e Hs Hop.
    destruct (run_operation_failed _ _ _ _ _ _ Hop)
      as (message & -> & Hraised & Hctx & Hinv & Hpub).
    by exists op, (context s), message, (invoked (effects s)).
  - done.
Qed.

Lemma cleanup_invoked env rid ctx st pending :
  invoked (run_effects (cleanup env rid ctx st pending)) = invoked (effects st).
Proof.
  unfold cleanup. destruct (track_event_raises env _); cbn [run_effects]; [done|].
  by rewrite emit_invoked.
Qed.

Lemma finalize_and_report_invoked env rid n st :
  invoked (effects (finalize_and_report env rid n st)) = invoked (effects st).
Proof.
  unfold finalize_and_report. cbn [effects].
  rewrite emit_invoked. cbn [log invoked]. by rewrite emit_invoked.
Qed.

Lemma initial_state_invoked env rid config :
  invoked (effects (initial_state env rid config)) = [].
Proof. unfold initial_state. cbn [effects]. by rewrite emit_invoked. Qed.

(** When the analytics call returns, the cleanup block ends with [done] and
    lets the pending exception through. *)
Lemma cleanup_after_failure env rid ctx st e :
  (∀ ev, track_event_raises env ev = false) →
  outcome (cleanup env rid ctx st (Some e)) = Raises e
  ∧ final_context (cleanup env rid ctx st (Some e)) = context st
  ∧ (truthy rid = true →
     ∃ ev, published (run_effects (cleanup env rid ctx st (Some e)))
           = published (effects st) ++ [ev]
           ∧ ev_type ev = "done").
Proof.
  intros Hsink. unfold cleanup. rewrite Hsink.
  cbn [outcome final_context run_effects]. repeat split.
  intros Hrid.
  match goal with
  | |- context [emit ?e ?r ?t ?d ?o ?fx] =>
      destruct (emit_on e r t d o fx Hrid) as (ev & Hpub & Hty & _)
  end.
  by exists ev.
Qed.


(** ** The lifecycle of one operator in the stream *)

Lemma emit_calls_published env rid calls fx :
  truthy rid = true →
  ∃ evs, published (emit_calls env rid calls fx) = published fx ++ evs
         ∧ ev_type <$> evs = call_type <$> calls.
Proof.
  intros Hrid. revert fx. induction calls as [|c calls IH]; intros fx.
  - exists []. by rewrite app_nil_r.
  - unfold emit_calls in *. cbn [foldl].
    destruct (IH (emit env rid (call_type c) DOpaque (call_op c) fx))
      as (evs & Hpub & Htypes).
    destruct (emit_on env rid (call_type c) DOpaque (call_op c) fx Hrid)
      as (ev & Hpub1 & Hty & _).
    exists (ev :: evs). rewrite Hpub, Hpub1, <- app_assoc. split; [done|].
    csimpl. by rewrite Hty, Htypes.
Qed.

(** What one pass through the body of [for op in ready] publishes. *)
Lemma run_operation_published env rid op st st' r :
  truthy rid = true →
  run_operation env rid op st = (st', r) →
  ∃ ev_start evs ev_close,
    published (effects st')
    = published (effects st) ++ ev_start :: evs ++ [ev_close]
    ∧ ev_type ev_start = "operator_start" ∧ ev_op ev_start = Some (name op)
    ∧ ev_type <$> evs = call_type <$> out_emits (op_execute op (context st))
    ∧ ev_op ev_close = Some (name op)
    ∧ ev_type ev_close = match r with
                         | None => "operator_end"
                         | Some _ => "error"
                         end.
Proof.
  intros Hrid. unfold run_operation.
  set (out := op_execute op (context st)).
  match goal with
  | |- context [emit ?e ?r "operator_start" ?d ?o ?fx] =>
      destruct (emit_on e r "operator_start" d o fx Hrid)
        as (ev1 & Hpub1 & Hty1 & Hop1 & _);
      set (fx1 := emit e r "operator_start" d o fx) in *
  end.
  destruct (emit_calls_published env rid (out_emits out) fx1 Hrid)
    as (evs & Hpub2 & Htypes).
  set (fx2 := emit_calls env rid (out_emits out) fx1) in *.
  destruct (out_raised out) as [message|]; intros [= <- <-]; cbn [effects].
  - match goal with
    | |- context [emit ?e ?r "error" ?d ?o ?fx] =>
        destruct (emit_on e r "error" d o fx Hrid)
          as (ev3 & Hpub3 & Hty3 & Hop3 & _)
    end.
    exists ev1, evs, ev3. rewrite Hpub3. cbn [log invoke published].
    rewrite Hpub2, Hpub1, <- !app_assoc. done.
  - cbn [log published].
    match goal with
    | |- context [emit ?e ?r "operator_end" ?d ?o ?fx] =>
        destruct (emit_on e r "operator_end" d o fx Hrid)
          as (ev3 & Hpub3 & Hty3 & Hop3 & _)
    end.
    exists ev1, evs, ev3. rewrite Hpub3. cbn [log invoke published].
    rewrite Hpub2, Hpub1, <- !app_assoc. done.
Qed.

Lemma quiet_events_filtered nm (evs : list Event) (calls : list EmitCall) :
  Forall (λ call, call_type call ∉ lifecycle_types) calls →
  ev_type <$> evs = call_type <$> calls →
  filter (is_transition nm) evs = [].
Proof.
  intros Hquiet. revert evs.
  induction Hquiet as [|c calls Hc _ IH]; intros [|ev evs]; csimpl; try done.
  intros [= Hty Hrest]. rewrite filter_cons_False; [by apply IH|].
  unfold is_transition. rewrite Hty. naive_solver.
Qed.

Lemma transitions_run_operation env rid op st st' r nm :
  truthy rid = true → emits_no_lifecycle op →
  run_operation env rid op st = (st', r) →
  transitions nm (effects st')
  = transitions nm (effects st)
    ++ (if decide (nm = name op)
        then ["operator_start";
              match r with None => "operator_end" | Some _ => "error" end]
        else []).
Proof.
  intros Hrid Hquiet Hop.
  destruct (run_operation_published _ _ _ _ _ _ Hrid Hop)
    as (ev1 & evs & ev3 & Hpub & Hty1 & Hop1 & Htypes & Hop3 & Hty3).
  unfold transitions. rewrite Hpub.
  rewrite filter_app, filter_cons, filter_app, filter_cons, filter_nil.
  rewrite (quiet_events_filtered nm evs _ (Hquiet (context st)) Htypes).
  assert (ev_type ev3 ∈ lifecycle_types) as Hin3.
  { rewrite Hty3. unfold lifecycle_types. destruct r; set_solver. }
  assert (ev_type ev1 ∈ lifecycle_types) as Hin1.
  { rewrite Hty1. unfold lifecycle_types. set_solver. }
  destruct (decide (nm = name op)) as [->|Hne].
  - rewrite !decide_True by done. rewrite fmap_app. csimpl.
    by rewrite Hty1, Hty3.
  - assert (¬ is_transition nm ev1) as Hn1
      by (unfold is_transition; naive_solver).
    assert (¬ is_transition nm ev3) as Hn3
      by (unfold is_transition; naive_solver).
    rewrite !decide_False by done. by rewrite !app_nil_r.
Qed.

Lemma calls_run_operation env rid op st st' r nm :
  run_operation env rid op st = (st', r) →
  calls_of nm (effects st')
  = calls_of nm (effects st)
    ++ (if decide (nm = name op)
        then [(name op, match r with None => true | Some _ => false end)]
        else []).
Proof.
  intros Hop. unfold calls_of.
  assert (invoked (effects st')
          = invoked (effects st)
            ++ [(name op, match r with None => true | Some _ => false end)])
    as ->.
  { destruct r as [e|].
    - by destruct (run_operation_failed _ _ _ _ _ _ Hop) as (? & _ & _ & _ & ? & _).
    - by destruct (run_operation_returned _ _ _ _ _ Hop) as (_ & _ & ?). }
  rewrite filter_app, filter_cons, filter_nil. cbn [fst].
  destruct (decide (nm = name op)) as [->|Hne].
  - by rewrite decide_True.
  - by rewrite decide_False by done.
Qed.

Lemma in_phase_emit_untagged env rid t d fx nm p :
  in_phase fx nm p → in_phase (emit env rid t d None fx) nm p.
Proof.
  unfold in_phase, transitions, calls_of. rewrite emit_invoked.
  destruct (truthy rid) eqn:Hrid; [|by rewrite emit_off].
  destruct (emit_on env rid t d None fx Hrid) as (ev & -> & _ & Hop & _).
  rewrite filter_app, filter_cons_False, filter_nil, app_nil_r; [done|].
  unfold is_transition. rewrite Hop. naive_solver.
Qed.

Lemma in_phase_initial_state env rid config nm :
  in_phase (effects (initial_state env rid config)) nm NotStarted.
Proof. unfold initial_state. cbn [effects]. by apply in_phase_emit_untagged. Qed.

Lemma in_phase_finalize_and_report env rid n st nm p :
  in_phase (effects st) nm p →
  in_phase (effects (finalize_and_report env rid n st)) nm p.
Proof.
  intros Hp. unfold finalize_and_report. cbn [effects].
  by apply in_phase_emit_untagged, in_phase_emit_untagged.
Qed.

Lemma in_phase_cleanup env rid ctx st pending nm p :
  in_phase (effects st) nm p →
  in_phase (run_effects (cleanup env rid ctx st pending)) nm p.
Proof.
  intros Hp. unfold cleanup.
  destruct (track_event_raises env _); cbn [run_effects]; [done|].
  by apply in_phase_emit_untagged.
Qed.

(** One operator of a batch: a returning call moves it from [NotStarted] to
    [Ended], a raising call to [Failed]; every other name stays where it is. *)
Lemma lifecycle_step env rid op st st' r :
  truthy rid = true → emits_no_lifecycle op → name op ∉ executed st →
  (∀ nm, in_phase (effects st) nm (loop_phase (executed st) nm)) →
  run_operation env rid op st = (st', r) →
  ∀ nm, in_phase (effects st') nm
          (match r with
           | None => loop_phase (executed st') nm
           | Some _ => if decide (nm = name op) then Failed
                       else loop_phase (executed st') nm
           end).
Proof.
  intros Hrid Hquiet Hnew Hinv Hop nm.
  pose proof (run_operation_executed _ _ _ _ _ _ Hop) as Hdone.
  destruct (Hinv nm) as [Htrans Hcalls]. unfold in_phase.
  rewrite (transitions_run_operation _ _ _ _ _ _ nm Hrid Hquiet Hop).
  rewrite (calls_run_operation _ _ _ _ _ _ nm Hop).
  rewrite Htrans, Hcalls. unfold loop_phase in *. rewrite Hdone.
  destruct (decide (nm = name op)) as [->|Hne].
  - rewrite (decide_False (P := name op ∈ executed st)) by done.
    destruct r; [done|]. rewrite decide_True by set_solver. done.
  - rewrite !app_nil_r. destruct r; [done|].
    destruct (decide (nm ∈ executed st)).
    + rewrite decide_True by set_solver. done.
    + rewrite decide_False by set_solver. done.
Qed.

Section Lifecycle.
Variable env : Env.
Variable request_id : option string.
Variable operations : list (option SearchOperation).
Hypothesis streaming : truthy request_id = true.
Hypothesis unique_names : NoDup (name <$> omap id operations).
Hypothesis quiet_operators : Forall emits_no_lifecycle (omap id operations).

Lemma scheduler_loop_lifecycle fuel st st' ex :
  lifecycle_inv [] st →
  scheduler_loop env request_id fuel operations st = (st', ex) →
  ∀ nm, ∃ p, in_phase (effects st') nm p.
Proof.
  intros Hinv Hloop.
  pose proof (scheduler_loop_rule env request_id operations
                lifecycle_inv lifecycle_failed) as Hrule.
  cut (match ex with
       | Raised (OperatorError message) =>
           lifecycle_failed (OperatorError message) st'
       | _ => lifecycle_inv [] st'
       end).
  { intros Hend nm. unfold lifecycle_inv, lifecycle_failed in Hend.
    destruct ex as [|[|message|]|];
      [destruct Hend as [Hend _]|destruct Hend as [Hend _]
      |destruct Hend as [failed Hend]|destruct Hend as [Hend _]
      |destruct Hend as [Hend _]]; eauto. }
  eapply Hrule; [| | | |exact Hinv|exact Hloop].
  - intros s ready (Hph & _ & _) Hready.
    destruct (find_ready_loop_sound _ _ _ _ Hready) as [Hsub Hnew].
    split; [done|]. split.
    + exact (sublist_NoDup _ _ unique_names (fmap_sublist name _ _ Hsub)).
    + apply Forall_forall. intros op Hop. split.
      * by apply (proj1 (Forall_forall _ _) Hnew).
      * apply (proj1 (Forall_forall _ _) quiet_operators).
        by apply (sublist_subseteq _ _ Hsub).
  - intros op rest s s' (Hph & Hnd & Hall) Hop.
    apply Forall_cons in Hall as [[Hnew Hquiet] Hall].
    apply NoDup_cons in Hnd as [Hfresh Hnd].
    pose proof (lifecycle_step _ _ _ _ _ _ streaming Hquiet Hnew Hph Hop) as Hstep.
    split; [exact Hstep|]. split; [done|].
    rewrite (run_operation_executed _ _ _ _ _ _ Hop).
    apply Forall_forall. intros op' Hin.
    destruct (proj1 (Forall_forall _ _) Hall op' Hin) as [Hnew' Hquiet'].
    split; [|done]. intros [Heq%elem_of_singleton|?]%elem_of_union; [|done].
    apply Hfresh. rewrite <- Heq. by apply list_elem_of_fmap_2.
  - intros op rest s s' e (Hph & Hnd & Hall) Hop.
    apply Forall_cons in Hall as [[Hnew Hquiet] Hall].
    exists (name op).
    exact (lifecycle_step _ _ _ _ _ _ streaming Hquiet Hnew Hph Hop).
  - by intros s remaining (Hph & Hnd & Hall).
Qed.

End Lifecycle.


(** ** Unsatisfiable dependencies *)

Lemma scheduler_loop_iteration env rid operations k st0 st fuel :
  iteration env rid operations k st0 = Some st →
  length operations ≤ size (executed st0) + fuel →
  ∃ fuel', length operations ≤ size (executed st) + fuel'
           ∧ scheduler_loop env rid fuel operations st0
             = scheduler_loop env rid fuel' operations st.
Proof.
  revert st0 fuel. induction k as [|k IH]; intros st0 fuel; cbn [iteration].
  - intros [= <-] Hfuel. by exists fuel.
  - case_bool_decide as Hlt; [|done].
    destruct (_find_ready_operations operations (executed st0))
      as [e|[|op ready]] eqn:Hready; try done.
    destruct (run_ready env rid (op :: ready) st0) as [st1 [e|]] eqn:Hrun;
      [done|].
    intros Hk Hfuel. destruct fuel as [|fuel]; [lia|].
    pose proof (batch_progress _ _ _ _ _ _ _ Hready Hrun) as Hprog.
    destruct (IH st1 fuel Hk) as (fuel' & Hfuel' & Heq); [lia|].
    exists fuel'. split; [done|]. rewrite <- Heq. cbn [scheduler_loop].
    rewrite bool_decide_eq_true_2 by done. by rewrite Hready, Hrun.
Qed.

Lemma remaining_names_ready operations done todo ready :
  find_ready_loop operations done todo = inr ready →
  remaining_names todo done
  = inr (filter (λ n, n ∉ done) (name <$> omap id todo)).
Proof.
  revert ready. induction todo as [|[op|] todo IH]; intros ready; csimpl;
    [done| |done].
  intros Hready.
  assert (∃ rest, find_ready_loop operations done todo = inr rest)
    as [rest Hrest].
  { revert Hready. case_bool_decide; [eauto|].
    destruct (deps_satisfied operations done (depends_on op)); csimpl; [done|].
    destruct (find_ready_loop operations done todo); csimpl; [done|eauto]. }
  rewrite (IH _ Hrest). csimpl.
  case_bool_decide.
  - by rewrite filter_cons_False by naive_solver.
  - by rewrite filter_cons_True.
Qed.

(** The iteration that finds nothing ready although operators remain logs
    the warning and leaves the loop. *)
Lemma stuck_iteration env rid operations st fuel :
  size (executed st) < length operations →
  _find_ready_operations operations (executed st) = inr [] →
  length operations ≤ size (executed st) + fuel →
  scheduler_loop env rid fuel operations st
  = (with_effects
       (log (LogWarning (filter (λ n, n ∉ executed st)
                           (name <$> omap id operations)))
          (effects st)) st,
     Finished).
Proof.
  intros Hlt Hready Hfuel. destruct fuel as [|fuel]; [lia|].
  cbn [scheduler_loop]. rewrite bool_decide_eq_true_2 by done.
  rewrite Hready. by rewrite (remaining_names_ready _ _ _ _ Hready).
Qed.

Lemma dict_set_fresh {V} (k : string) (v : V) (d : list (string * V)) :
  k ∉ d.*1 → dict_set k v d = d ++ [(k, v)].
Proof.
  induction d as [|[k' v'] d IH]; csimpl; [done|].
  intros [Hne Hnot]%not_elem_of_cons.
  rewrite bool_decide_eq_false_2 by done. by rewrite IH.
Qed.

Section Timings.
Variable env : Env.
Variable request_id : option string.
Variable operations : list (option SearchOperation).
Hypothesis unique_names : NoDup (name <$> omap id operations).
Hypothesis tidy_operators : Forall leaves_timings (omap id operations).

Lemma scheduler_loop_timings fuel st st' :
  timings_inv [] st →
  scheduler_loop env request_id fuel operations st = (st', Finished) →
  timings_inv [] st'.
Proof.
  intros Hinv Hloop.
  apply (scheduler_loop_rule env request_id operations
           timings_inv (λ _ _, True) ) with (fuel := fuel) (st := st)
           (st' := st') (ex := Finished); try done.
  - intros s ready (Hkeys & Hall & Hin & _ & _) Hready.
    destruct (find_ready_loop_sound _ _ _ _ Hready) as [Hsub Hnew].
    repeat split; try done.
    + exact (sublist_NoDup _ _ unique_names (fmap_sublist name _ _ Hsub)).
    + apply Forall_forall. intros op Hop. split.
      * by apply (proj1 (Forall_forall _ _) Hnew).
      * apply (proj1 (Forall_forall _ _) tidy_operators).
        by apply (sublist_subseteq _ _ Hsub).
  - intros op rest s s' (Hkeys & Hall & Hin & Hnd & Hrest) Hop.
    apply Forall_cons in Hrest as [[Hnew Htidy] Hrest].
    apply NoDup_cons in Hnd as [Hfresh Hnd].
    destruct (run_operation_returned _ _ _ _ _ Hop) as (_ & Hctx & Hinv').
    pose proof (run_operation_executed _ _ _ _ _ _ Hop) as Hdone.
    cbn in Hdone. unfold timings_inv. rewrite Hctx, Hinv', Hdone.
    cbn [with_timing ctx_timings]. rewrite Htidy.
    rewrite dict_set_fresh by (rewrite Hkeys; naive_solver).
    rewrite !fmap_app, Hkeys. repeat split; try done.
    + apply Forall_app. split; [done|]. by repeat constructor.
    + intros nm [?|Heq%list_elem_of_singleton]%elem_of_app; set_solver.
    + apply Forall_forall. intros op' Hin'.
      destruct (proj1 (Forall_forall _ _) Hrest op' Hin') as [Hnew' Htidy'].
      split; [|done]. intros [Heq%elem_of_singleton|?]%elem_of_union; [|done].
      apply Hfresh. rewrite <- Heq. by apply list_elem_of_fmap_2.
Qed.

End Timings.

Lemma logged_stable entry : emit_stable (λ fx, entry ∈ logged fx).
Proof.
  repeat split.
  - intros env rid t d o fx. by rewrite emit_logged.
  - intros entry' fx Hin. cbn [log logged]. apply elem_of_app. by left.
  - done.
Qed.

Lemma cleanup_logged env rid ctx st pending entry :
  entry ∈ logged (effects st) →
  entry ∈ logged (run_effects (cleanup env rid ctx st pending)).
Proof.
  unfold cleanup. destruct (track_event_raises env _); cbn [run_effects]; [done|].
  by rewrite emit_logged.
Qed.

Lemma cleanup_returns env rid ctx st :
  (∀ ev, track_event_raises env ev = false) →
  outcome (cleanup env rid ctx st None) = Returns (context st)
  ∧ final_context (cleanup env rid ctx st None) = context st
  ∧ run_executed (cleanup env rid ctx st None) = executed st.
Proof. intros Hsink. unfold cleanup. by rewrite Hsink. Qed.


(** ** A null required slot *)

Lemma find_ready_loop_null operations done todo :
  None ∈ todo → find_ready_loop operations done todo = inl AttributeError.
Proof.
  induction todo as [|[op|] todo IH]; csimpl.
  - by intros ?%elem_of_nil.
  - intros [?|Hin]%elem_of_cons; [done|].
    case_bool_decide; [by apply IH|].
    destruct (deps_satisfied operations done (depends_on op)) as [e|ok] eqn:Hd;
      csimpl.
    + by rewrite (deps_satisfied_raises _ _ _ _ Hd).
    + by rewrite (IH Hin).
  - done.
Qed.

Lemma required_slots_in_plan config :
  embedding config ∈ _extract_operations_from_config config
  ∧ vector_search config ∈ _extract_operations_from_config config.
Proof. unfold _extract_operations_from_config. set_solver. Qed.

Lemma initial_state_published env rid config :
  truthy rid = true →
  ev_type <$> published (effects (initial_state env rid config)) = ["start"].
Proof.
  intros Hrid. unfold initial_state. cbn [effects].
  match goal with
  | |- context [emit ?e ?r ?t ?d ?o ?fx] =>
      destruct (emit_on e r t d o fx Hrid) as (ev & Hpub & Hty & _)
  end.
  rewrite Hpub. csimpl. by rewrite Hty.
Qed.


(** * Concrete runs: witnesses and counterexamples *)

Section Witnesses.
Import Scenarios.

Lemma find_ready_operations_exact_witness :
  embedding_op ∈ [embedding_op; vector_search_op]
  ∧ (name embedding_op ∉ (∅ : gset string))
  ∧ Forall (λ dep, dep ∉ (name <$> [embedding_op; vector_search_op]))
      (depends_on embedding_op)
  ∧ _find_ready_operations (Some <$> [embedding_op; vector_search_op]) ∅
    = inr (filter (ready_spec [embedding_op; vector_search_op] ∅)
             [embedding_op; vector_search_op])
  ∧ embedding_op
    ∈ filter (ready_spec [embedding_op; vector_search_op] ∅)
        [embedding_op; vector_search_op].
Proof.
  assert (embedding_op ∈ [embedding_op; vector_search_op]) as Hin
    by apply list_elem_of_here.
  assert (name embedding_op ∉ (∅ : gset string)) as Hnew
    by apply not_elem_of_empty.
  assert (Forall (λ dep, dep ∉ (name <$> [embedding_op; vector_search_op]))
            (depends_on embedding_op)) as Habsent.
  { repeat constructor. compute_done. }
  destruct (find_ready_operations_exact [embedding_op; vector_search_op] ∅)
    as [Hexact Hready].
  repeat split; try done. by apply Hready.
Defined.


Lemma quiet_scenario_operators :
  Forall emits_no_lifecycle
    [embedding_op; vector_search_op; reranking_boom; op_a; op_b].
Proof.
  assert ("embedding_done" ∉ lifecycle_types) as Hcustom by compute_done.
  repeat apply Forall_cons_2; try apply Forall_nil_2; intros c; cbn.
  - by repeat constructor.
  - constructor.
  - constructor.
  - constructor.
  - constructor.
Defined.






Lemma finalization_guarantees_witness :
  outcome (execute env_ok None minimal_config api)
  = Returns (final_context (execute env_ok None minimal_config api))
  ∧ ∃ st,
      scheduler_loop env_ok None
        (length (_extract_operations_from_config minimal_config))
        (_extract_operations_from_config minimal_config)
        (initial_state env_ok None minimal_config) = (st, Finished)
      ∧ ctx_final_results
          (final_context (execute env_ok None minimal_config api))
        = Some [{| hit_id := 1 |}; {| hit_id := 2 |}]
      ∧ ctx_execution_summary
          (final_context (execute env_ok None minimal_config api))
        = Some {| operations_executed := 2; total_time_ms := 12;
                  errors_count := 0 |}.
Proof.
  assert (outcome (execute env_ok None minimal_config api)
          = Returns (final_context (execute env_ok None minimal_config api)))
    as Hret by (by vm_compute).
  split; [exact Hret|].
  destruct (finalization_guarantees env_ok None minimal_config api _ Hret)
    as (st & Hloop & Hfinal & Hsummary & _).
  exists st. split; [exact Hloop|]. rewrite Hfinal, Hsummary.
  assert (st = (scheduler_loop env_ok None
                  (length (_extract_operations_from_config minimal_config))
                  (_extract_operations_from_config minimal_config)
                  (initial_state env_ok None minimal_config)).1) as ->
    by (by rewrite Hloop).
  split; by vm_compute.
Defined.

Lemma results_count_iff_nonempty_witness :
  ∃ ev,
    tracked (run_effects (execute env_ok None cyclic_config api)) = [ev]
    ∧ ctx_final_results (final_context (execute env_ok None cyclic_config api))
      = Some []
    ∧ results_count (properties ev) = None.
Proof.
  destruct (results_count_iff_nonempty env_ok None cyclic_config api)
    as (ev & Htracked & _ & Hcount).
  exists ev. split; [exact Htracked|].
  assert (ctx_final_results
            (final_context (execute env_ok None cyclic_config api)) = Some [])
    as Hempty by (by vm_compute).
  split; [exact Hempty|]. by rewrite (Hcount [] Hempty).
Defined.

(** C9 fails on the code: when the analytics call raises, the exception
    leaves the cleanup block; [done] is not emitted and the context is not
    returned, although the pipeline itself succeeded. *)
Example analytics_failure_escapes :
  outcome (execute env_ok (Some "r1") minimal_config api)
  = Returns (final_context (execute env_ok (Some "r1") minimal_config api))
  ∧ last (ev_type <$> published
            (run_effects (execute env_ok (Some "r1") minimal_config api)))
    = Some "done"
  ∧ outcome (execute env_sink_down (Some "r1") minimal_config api)
    = Raises AnalyticsError
  ∧ last (ev_type <$> published
            (run_effects (execute env_sink_down (Some "r1") minimal_config api)))
    = Some "summary"
  ∧ "done" ∉ (ev_type <$> published
                (run_effects
                   (execute env_sink_down (Some "r1") minimal_config api))).
Proof.
  split; [by vm_compute|]. split; [by vm_compute|]. split; [by vm_compute|].
  split; [by vm_compute|]. compute_done.
Qed.

End Witnesses.

(** * Further properties of the executor *)

Lemma run_stable_emit_calls env rid P calls fx :
  run_stable env rid P → P fx → P (emit_calls env rid calls fx).
Proof.
  intros (Hemit & _). revert fx.
  induction calls as [|c calls IH]; intros fx HP; [done|].
  unfold emit_calls in *. simpl. apply IH. by apply Hemit.
Qed.

Lemma run_stable_run_operation env rid P op st st' r :
  run_stable env rid P → P (effects st) →
  run_operation env rid op st = (st', r) → P (effects st').
Proof.
  intros Hst HP. pose proof Hst as (Hemit & Hlog & Hinv & _).
  unfold run_operation.
  destruct (out_raised (op_execute op (context st))); intros [= <- <-]; simpl.
  - apply Hemit, Hlog, Hinv, run_stable_emit_calls, Hemit; done.
  - apply Hlog, Hemit, Hlog, Hinv, run_stable_emit_calls, Hemit; done.
Qed.

(** Whatever holds of no effects at all and is kept by every effect of a
    run holds of the effects of [execute]. *)
Lemma execute_effects_ind env rid P config ctx :
  run_stable env rid P → P no_effects →
  P (run_effects (execute env rid config ctx)).
Proof.
  intros Hst HP. pose proof Hst as (Hemit & Hlog & Hinv & Htrack).
  destruct (execute_cases env rid config ctx) as (st & ex & Hloop & Hex).
  assert (P (effects (initial_state env rid config))) as H0.
  { unfold initial_state. cbn [effects]. by apply Hemit, Hlog. }
  assert (P (effects st)) as Hend.
  { pose proof (scheduler_loop_rule env rid
                  (_extract_operations_from_config config)
                  (λ _ s, P (effects s)) (λ _ s, P (effects s))) as Hrule.
    cut (match ex with
         | Raised (OperatorError _) => P (effects st)
         | _ => P (effects st)
         end).
    { by destruct ex as [|[]|]. }
    eapply Hrule; [| | | |exact H0|exact Hloop]; cbn beta.
    - done.
    - intros ????. by apply run_stable_run_operation.
    - intros ?????. by apply run_stable_run_operation.
    - intros ?? HP'. by apply Hlog. }
  assert (∀ s pending, P (effects s) →
            P (run_effects (cleanup env rid ctx s pending))) as Hclean.
  { intros s pending Hs. unfold cleanup.
    destruct (track_event_raises env _); cbn [run_effects].
    - by apply Htrack.
    - by apply Hemit, Htrack. }
  destruct ex as [|e|]; [| |done]; rewrite Hex; apply Hclean; [|done].
  unfold finalize_and_report. cbn [effects]. by apply Hemit, Hlog, Hemit.
Qed.

(** X1: without a request id (absent or empty) nothing is handed to the
    publisher on any path, and neither sequence counter moves, whatever the
    operators emit. *)
Theorem no_request_id_no_events env rid config ctx :
  truthy rid = false →
  published (run_effects (execute env rid config ctx)) = []
  ∧ delivered (run_effects (execute env rid config ctx)) = []
  ∧ global_sequence (run_effects (execute env rid config ctx)) = 0
  ∧ op_sequences (run_effects (execute env rid config ctx)) = ∅.
Proof.
  intros Hoff. apply (execute_effects_ind env rid silent); [|done].
  split; [|done]. intros t d o fx Hs. by rewrite emit_off.
Qed.

(** The frame built by one emitter call of a streaming run, with the
    per-operator counter it leaves behind. *)
Lemma emit_frame env rid t d o fx :
  truthy rid = true →
  ∃ e, published (emit env rid t d o fx) = published fx ++ [e]
       ∧ ev_op e = o
       ∧ match o with
         | Some nm =>
             if truthy o
             then op_sequences (emit env rid t d o fx)
                  = <[nm := S (default 0 (op_sequences fx !! nm))]>
                      (op_sequences fx)
                  ∧ ev_op_seq e = Some (S (default 0 (op_sequences fx !! nm)))
             else op_sequences (emit env rid t d o fx) = op_sequences fx
                  ∧ ev_op_seq e = None
         | None => op_sequences (emit env rid t d o fx) = op_sequences fx
                   ∧ ev_op_seq e = None
         end.
Proof.
  intros Hrid. unfold emit. rewrite Hrid. cbn [negb published op_sequences].
  eexists. split; [reflexivity|]. split; [reflexivity|].
  destruct o as [nm|]; [|done]. cbn [ev_op_seq].
  destruct (truthy (Some nm)); [|done]. split; [done|].
  by rewrite lookup_insert_eq.
Qed.

Lemma op_dense_emit env rid t d o fx :
  op_dense fx → op_dense (emit env rid t d o fx).
Proof.
  intros [Hseq Hnone].
  destruct (truthy rid) eqn:Hrid; [|by rewrite emit_off].
  destruct (emit_frame env rid t d o fx Hrid) as (e & Hpub & Hop & Hcount).
  unfold op_dense, tagged. rewrite Hpub. split.
  - intros nm Hnm. rewrite filter_app, fmap_app. unfold tagged in Hseq.
    rewrite (Hseq nm Hnm).
    destruct o as [nm'|].
    + destruct (truthy (Some nm')) eqn:Htag.
      * destruct Hcount as [-> Hval].
        destruct (decide (nm' = nm)) as [->|Hne].
        -- rewrite filter_cons_True by done. rewrite filter_nil.
           rewrite lookup_insert_eq. cbn [from_option id]. rewrite seq_S, fmap_app.
           csimpl. by rewrite Hval.
        -- rewrite filter_cons_False by (rewrite Hop; congruence).
           rewrite filter_nil, app_nil_r. by rewrite lookup_insert_ne.
      * destruct Hcount as [-> _].
        rewrite filter_cons_False; [by rewrite filter_nil, app_nil_r|].
        rewrite Hop. intros [= ->]. cbn in Htag.
        by rewrite bool_decide_eq_false_2 in Htag.
    + destruct Hcount as [-> _].
      rewrite filter_cons_False by (by rewrite Hop).
      by rewrite filter_nil, app_nil_r.
  - apply Forall_app. split; [done|]. constructor; [|done].
    rewrite Hop. destruct o as [nm'|]; [|by destruct Hcount].
    destruct (truthy (Some nm')) eqn:Htag; [|by destruct Hcount].
    intros [?|[= ->]]; [done|]. done.
Qed.



(** X4: the analytics record of a run says [status = "success"] on every
    path, also when [execute] raises; its [search_type] is "streaming"
    exactly for a non-empty request id, and it is attributed to the user
    when there is one and to "api_key_<organization id>" otherwise. *)
Theorem analytics_status_always_success env rid config ctx :
  ∃ ev,
    tracked (run_effects (execute env rid config ctx)) = [ev]
    ∧ status (properties ev) = "success"
    ∧ search_type (properties ev)
      = (if truthy rid then "streaming" else "regular")
    ∧ distinct_id ev = match user_id ctx with
                       | Some uid => uid
                       | None => "api_key_" +:+ organization_id ctx
                       end
    ∧ group_organization ev = organization_id ctx
    ∧ query_length (properties ev)
      = String.length (ctx_query (final_context (execute env rid config ctx))).
Proof. eexists. split; [apply execute_tracked|]. done. Qed.

Lemma finalize_and_report_published env rid n st :
  truthy rid = true →
  ∃ ev_results ev_summary,
    published (effects (finalize_and_report env rid n st))
    = published (effects st) ++ [ev_results; ev_summary]
    ∧ ev_type ev_results = "results"
    ∧ ev_data ev_results
      = DResults (default [] (ctx_final_results (_finalize_context (context st))))
    ∧ ev_type ev_summary = "summary"
    ∧ ev_data ev_summary
      = DSummary (ctx_timings (context st)) (ctx_errors (context st))
          (clock_total_ms env).
Proof.
  intros Hrid. unfold finalize_and_report. cbn [effects].
  match goal with
  | |- context [emit ?e ?r "summary" ?d ?o ?fx] =>
      destruct (emit_on e r "summary" d o fx Hrid)
        as (ev2 & Hpub2 & Hty2 & _ & Hdata2 & _)
  end.
  cbn [log published] in Hpub2.
  match type of Hpub2 with
  | context [emit ?e ?r "results" ?d ?o ?fx] =>
      destruct (emit_on e r "results" d o fx Hrid)
        as (ev1 & Hpub1 & Hty1 & _ & Hdata1 & _)
  end.
  exists ev1, ev2. rewrite Hpub2, Hpub1, <- app_assoc. done.
Qed.

(** X5: when a streaming run returns a context, the stream ends with
    [results], [summary], [done], and these frames carry the returned
    context's [final_results], [timings] and [errors]: subscribers see what
    the caller gets. *)
Theorem returned_context_is_streamed env rid config ctx c :
  truthy rid = true →
  outcome (execute env rid config ctx) = Returns c →
  ∃ before ev_results ev_summary ev_done hits,
    published (run_effects (execute env rid config ctx))
    = before ++ [ev_results; ev_summary; ev_done]
    ∧ ctx_final_results c = Some hits
    ∧ ev_type ev_results = "results" ∧ ev_data ev_results = DResults hits
    ∧ ev_type ev_summary = "summary"
    ∧ ev_data ev_summary
      = DSummary (ctx_timings c) (ctx_errors c) (clock_total_ms env)
    ∧ ev_type ev_done = "done" ∧ ev_data ev_done = DDone rid.
Proof.
  intros Hrid Hret.
  destruct (execute_returns _ _ _ _ _ Hret) as (st & Hloop & -> & _).
  revert Hret. unfold execute. rewrite Hloop. unfold cleanup.
  destruct (track_event_raises env _); [done|]. cbn [outcome run_effects].
  intros _.
  match goal with
  | |- context [emit ?e ?r "done" ?d ?o ?fx] =>
      destruct (emit_on e r "done" d o fx Hrid)
        as (ev3 & Hpub3 & Hty3 & _ & Hdata3 & _)
  end.
  cbn [track published] in Hpub3.
  destruct (finalize_and_report_published env rid
              (length (_extract_operations_from_config config)) st Hrid)
    as (ev1 & ev2 & Hpub & Hty1 & Hdata1 & Hty2 & Hdata2).
  exists (published (effects st)), ev1, ev2, ev3,
    (default [] (ctx_final_results (_finalize_context (context st)))).
  rewrite Hpub3, Hpub, <- app_assoc. split; [done|]. split; [|done].
  unfold _finalize_context. cbn [ctx_final_results].
  by destruct (ctx_final_results (context st)).
Qed.

(** X6: the pipeline stops at the first failure: on every path either all
    operator calls returned, or exactly the last call raised and all calls
    before it returned. *)
Theorem first_failure_is_last_call env rid config ctx :
  all_returned (invoked (run_effects (execute env rid config ctx)))
  ∨ ∃ calls nm,
      invoked (run_effects (execute env rid config ctx))
      = calls ++ [(nm, false)]
      ∧ all_returned calls.
Proof.
  destruct (execute_cases env rid config ctx) as (st & ex & Hloop & Hex).
  assert (all_returned (invoked (effects (initial_state env rid config))))
    as Hall0 by (rewrite initial_state_invoked; constructor).
  pose proof (scheduler_loop_failure _ _ _ _ _ _ _ Hall0 Hloop) as Hend.
  destruct ex as [|e|]; [| |done]; rewrite Hex, cleanup_invoked.
  - left. by rewrite finalize_and_report_invoked.
  - destruct e as [|message|]; [by left| |by left].
    destruct Hend as (op & c & m & calls & _ & _ & _ & Hinv & Hall & _).
    right. by exists calls, (name op).
Qed.

(** ** Dependency order *)

Lemma operation_exists_absent operations nm :
  _operation_exists operations nm = inr false →
  nm ∉ (name <$> omap id operations).
Proof.
  induction operations as [|[op|] operations IH]; csimpl.
  - intros _. apply not_elem_of_nil.
  - case_bool_decide as Hname; [done|]. intros Hrest.
    apply not_elem_of_cons. split; [done|]. by apply IH.
  - done.
Qed.

Lemma deps_satisfied_sound operations done deps :
  deps_satisfied operations done deps = inr true →
  Forall (λ dep, dep ∈ done ∨ dep ∉ (name <$> omap id operations)) deps.
Proof.
  induction deps as [|dep deps IH]; csimpl; [constructor|].
  case_bool_decide as Hin.
  - intros Hrest. constructor; [by left|by apply IH].
  - destruct (_operation_exists operations dep) as [e|[]] eqn:Hex; csimpl;
      try done.
    intros Hrest. constructor; [|by apply IH].
    right. by apply operation_exists_absent.
Qed.

(** What the scheduler hands out are plan operators whose dependencies are
    executed or absent. *)
Lemma find_ready_loop_deps operations done todo ready :
  find_ready_loop operations done todo = inr ready →
  Forall (λ op, Some op ∈ todo
                ∧ Forall (λ dep, dep ∈ done
                                 ∨ dep ∉ (name <$> omap id operations))
                    (depends_on op)) ready.
Proof.
  revert ready. induction todo as [|[op|] todo IH]; intros ready; csimpl.
  - intros [= <-]. constructor.
  - assert (∀ rest,
              Forall (λ op, Some op ∈ todo
                            ∧ Forall (λ dep, dep ∈ done
                                             ∨ dep ∉ (name <$> omap id operations))
                                (depends_on op)) rest →
              Forall (λ op', Some op' ∈ Some op :: todo
                             ∧ Forall (λ dep, dep ∈ done
                                              ∨ dep ∉ (name <$> omap id operations))
                                 (depends_on op')) rest) as Hweaken.
    { intros rest Hall. eapply Forall_impl; [exact Hall|]. cbn beta.
      intros op' [Hin Hdeps]. split; [by apply list_elem_of_further|done]. }
    case_bool_decide as Hin.
    + intros Hrest. by apply Hweaken, IH.
    + destruct (deps_satisfied operations done (depends_on op)) as [e|ok]
        eqn:Hdeps; csimpl; [done|].
      destruct (find_ready_loop operations done todo) as [e|rest];
        csimpl; [done|].
      intros [= <-]. destruct ok; [|by apply Hweaken, IH].
      constructor; [|by apply Hweaken, IH].
      split; [apply list_elem_of_here|by apply deps_satisfied_sound].
  - done.
Qed.

Lemma snoc_split {A} (l before after : list A) (x y : A) :
  l ++ [x] = before ++ y :: after →
  (after = [] ∧ before = l ∧ y = x)
  ∨ ∃ after', after = after' ++ [x] ∧ l = before ++ y :: after'.
Proof.
  destruct after as [|z after _] using rev_ind.
  - intros [-> ->]%app_inj_tail. by left.
  - rewrite app_comm_cons, app_assoc. intros [-> ->]%app_inj_tail.
    right. by exists after.
Qed.

Lemma in_dependency_order_snoc operations calls op b :
  in_dependency_order operations calls →
  Some op ∈ operations → deps_met operations calls op →
  in_dependency_order operations (calls ++ [(name op, b)]).
Proof.
  intros Hord Hin Hmet before nm b' after Hsplit.
  apply snoc_split in Hsplit as [(-> & -> & [= -> ->])|(after' & -> & ->)].
  - by exists op.
  - by eapply Hord.
Qed.

Lemma order_inv_step env rid operations op rest st st' r :
  order_inv operations (op :: rest) st →
  run_operation env rid op st = (st', r) →
  match r with
  | None => order_inv operations rest st'
  | Some _ => in_dependency_order operations (invoked (effects st'))
  end.
Proof.
  intros (Hord & Hexec & Hrest) Hop.
  apply Forall_cons in Hrest as [[Hin Hdeps] Hrest].
  assert (deps_met operations (invoked (effects st)) op) as Hmet.
  { unfold deps_met. eapply Forall_impl; [exact Hdeps|]. cbn beta.
    intros dep [Hdone|Habsent]; [left; by apply Hexec|by right]. }
  pose proof (run_operation_executed _ _ _ _ _ _ Hop) as Hdone.
  destruct r as [e|].
  - destruct (run_operation_failed _ _ _ _ _ _ Hop) as (? & _ & _ & _ & -> & _).
    by apply in_dependency_order_snoc.
  - destruct (run_operation_returned _ _ _ _ _ Hop) as (_ & _ & Hinv).
    unfold order_inv. rewrite Hinv, Hdone. split; [|split].
    + by apply in_dependency_order_snoc.
    + intros nm. rewrite elem_of_union, elem_of_singleton, elem_of_app,
        list_elem_of_singleton, Hexec. naive_solver.
    + eapply Forall_impl; [exact Hrest|]. cbn beta. intros op' [Hin' Hdeps'].
      split; [done|]. eapply Forall_impl; [exact Hdeps'|]. cbn beta.
      set_solver.
Qed.

Lemma scheduler_loop_order env rid operations fuel st st' ex :
  order_inv operations [] st →
  scheduler_loop env rid fuel operations st = (st', ex) →
  in_dependency_order operations (invoked (effects st'))
  ∧ (∀ nm, nm ∈ executed st' → (nm, true) ∈ invoked (effects st')).
Proof.
  intros Hinv Hloop.
  pose proof (scheduler_loop_rule env rid operations
                (order_inv operations)
                (λ _ s, in_dependency_order operations (invoked (effects s))
                        ∧ (∀ nm, nm ∈ executed s →
                                 (nm, true) ∈ invoked (effects s)))) as Hrule.
  cut (match ex with
       | Raised (OperatorError _) =>
           in_dependency_order operations (invoked (effects st'))
           ∧ (∀ nm, nm ∈ executed st' → (nm, true) ∈ invoked (effects st'))
       | _ => order_inv operations [] st'
       end).
  { destruct ex as [|[]|]; try done; intros (? & Hexec & _);
      (split; [done|]); intros nm; by apply Hexec. }
  eapply Hrule; [| | | |exact Hinv|exact Hloop].
  - intros s ready (Hord & Hexec & _) Hready.
    split; [done|]. split; [done|]. by eapply find_ready_loop_deps.
  - intros op rest s s' Hs Hop.
    exact (order_inv_step _ _ _ _ _ _ _ None Hs Hop).
  - intros op rest s s' e Hs Hop. split.
    + exact (order_inv_step _ _ _ _ _ _ _ (Some e) Hs Hop).
    + destruct Hs as (_ & Hexec & _).
      destruct (run_operation_failed _ _ _ _ _ _ Hop) as (? & _ & _ & _ & -> & _).
      rewrite (run_operation_executed _ _ _ _ _ _ Hop).
      intros nm Hnm. apply elem_of_app. left. by apply Hexec.
  - by intros s remaining (? & ? & ?).
Qed.

(** X7: operators run in dependency order.  In every run, each call of
    [op.execute] is the call of a plan operator, and every dependency of
    that operator either names an operator whose call returned earlier in
    the run or is not the name of any operator of the plan. *)
Theorem operators_run_in_dependency_order env rid config ctx :
  in_dependency_order (_extract_operations_from_config config)
    (invoked (run_effects (execute env rid config ctx))).
Proof.
  destruct (execute_cases env rid config ctx) as (st & ex & Hloop & Hex).
  assert (order_inv (_extract_operations_from_config config) []
            (initial_state env rid config)) as Hinit.
  { unfold order_inv. rewrite initial_state_invoked.
    cbn [initial_state executed]. split; [|split; [|constructor]].
    - intros before nm b after Hnil. by destruct before.
    - intros nm. set_solver. }
  destruct (scheduler_loop_order _ _ _ _ _ _ _ Hinit Hloop) as [Hord _].
  destruct ex as [|e|]; [| |done]; rewrite Hex, cleanup_invoked; [|done].
  by rewrite finalize_and_report_invoked.
Qed.

(** ** The keys of [timings] *)

Lemma returned_names_all calls :
  all_returned calls → filter (λ call : string * bool, call.2 = true) calls = calls.
Proof.
  induction 1 as [|call calls Hcall _ IH]; [done|].
  by rewrite filter_cons_True, IH.
Qed.

Section TimingKeys.
Variable env : Env.
Variable request_id : option string.
Variable operations : list (option SearchOperation).
Hypothesis unique_names : NoDup (name <$> omap id operations).
Hypothesis tidy_operators : Forall leaves_timings (omap id operations).

Lemma timings_inv_batch st ready :
  timings_inv [] st →
  _find_ready_operations operations (executed st) = inr ready →
  timings_inv ready st.
Proof.
  intros (Hkeys & Hall & Hin & _ & _) Hready.
  destruct (find_ready_loop_sound _ _ _ _ Hready) as [Hsub Hnew].
  repeat split; try done.
  - exact (sublist_NoDup _ _ unique_names (fmap_sublist name _ _ Hsub)).
  - apply Forall_forall. intros op Hop. split.
    + by apply (proj1 (Forall_forall _ _) Hnew).
    + apply (proj1 (Forall_forall _ _) tidy_operators).
      by apply (sublist_subseteq _ _ Hsub).
Qed.

Lemma timings_inv_returned op rest st st' :
  timings_inv (op :: rest) st →
  run_operation env request_id op st = (st', None) →
  timings_inv rest st'.
Proof.
  intros (Hkeys & Hall & Hin & Hnd & Hrest) Hop.
  apply Forall_cons in Hrest as [[Hnew Htidy] Hrest].
  apply NoDup_cons in Hnd as [Hfresh Hnd].
  destruct (run_operation_returned _ _ _ _ _ Hop) as (_ & Hctx & Hinv').
  pose proof (run_operation_executed _ _ _ _ _ _ Hop) as Hdone.
  cbn in Hdone. unfold timings_inv. rewrite Hctx, Hinv', Hdone.
  cbn [with_timing ctx_timings]. rewrite Htidy.
  rewrite dict_set_fresh by (rewrite Hkeys; naive_solver).
  rewrite !fmap_app, Hkeys. repeat split; try done.
  - apply Forall_app. split; [done|]. by repeat constructor.
  - intros nm [?|Heq%list_elem_of_singleton]%elem_of_app; set_solver.
  - apply Forall_forall. intros op' Hin'.
    destruct (proj1 (Forall_forall _ _) Hrest op' Hin') as [Hnew' Htidy'].
    split; [|done]. intros [Heq%elem_of_singleton|?]%elem_of_union; [|done].
    apply Hfresh. rewrite <- Heq. by apply list_elem_of_fmap_2.
Qed.

Lemma scheduler_loop_timing_keys fuel st st' ex :
  timings_inv [] st →
  scheduler_loop env request_id fuel operations st = (st', ex) →
  (ctx_timings (context st')).*1 = returned_names (effects st').
Proof.
  intros Hinv Hloop.
  pose proof (scheduler_loop_rule env request_id operations timings_inv
                (λ _ s, (ctx_timings (context s)).*1
                        = returned_names (effects s))) as Hrule.
  cut (match ex with
       | Raised (OperatorError _) =>
           (ctx_timings (context st')).*1 = returned_names (effects st')
       | _ => timings_inv [] st'
       end).
  { destruct ex as [|[]|]; try done; intros (Hkeys & Hall & _);
      unfold returned_names; by rewrite returned_names_all. }
  eapply Hrule; [| | | |exact Hinv|exact Hloop].
  - exact timings_inv_batch.
  - exact timings_inv_returned.
  - intros op rest s s' e (Hkeys & Hall & _ & _ & Hrest) Hop.
    apply Forall_cons in Hrest as [[_ Htidy] _].
    destruct (run_operation_failed _ _ _ _ _ _ Hop)
      as (message & _ & _ & Hctx & Hinv' & _).
    unfold returned_names. rewrite Hctx, Hinv'. cbn [with_error ctx_timings].
    rewrite Htidy, filter_app, filter_cons_False by done.
    by rewrite filter_nil, app_nil_r, returned_names_all.
  - by intros s remaining (? & ? & ? & ? & ?).
Qed.

End TimingKeys.

(** X8: [timings] has an entry for an operator exactly when its call
    returned.  With distinct operator names and operators that leave
    [timings] alone, on every path (return or raise) the keys of [timings]
    in the final context are the names of the returned calls, in call
    order; an operator that raised has no entry. *)
Theorem timings_keys_are_returned_calls env rid config ctx :
  NoDup (name <$> omap id (_extract_operations_from_config config)) →
  Forall leaves_timings (omap id (_extract_operations_from_config config)) →
  (ctx_timings (final_context (execute env rid config ctx))).*1
  = returned_names (run_effects (execute env rid config ctx)).
Proof.
  intros Hnd Htidy.
  destruct (execute_cases env rid config ctx) as (st & ex & Hloop & Hex).
  assert (timings_inv [] (initial_state env rid config)) as Hinit.
  { unfold timings_inv. rewrite initial_state_invoked.
    cbn [initial_state context executed]. destruct (truthy rid);
      repeat split; try constructor; set_solver. }
  pose proof (scheduler_loop_timing_keys env rid _ Hnd Htidy _ _ _ _
                Hinit Hloop) as Hkeys.
  assert (∀ s pending,
            final_context (cleanup env rid ctx s pending) = context s
            ∧ returned_names (run_effects (cleanup env rid ctx s pending))
              = returned_names (effects s)) as Hclean.
  { intros s pending. unfold returned_names. rewrite cleanup_invoked.
    split; [|done]. unfold cleanup. by destruct (track_event_raises env _). }
  destruct ex as [|e|]; [| |done]; rewrite Hex.
  - destruct (Hclean (finalize_and_report env rid
                        (length (_extract_operations_from_config config)) st)
                None) as [-> ->].
    unfold returned_names. by rewrite finalize_and_report_invoked.
  - by destruct (Hclean st (Some e)) as [-> ->].
Qed.

(** ** Progress of the scheduler *)

(** X9: readiness is monotone.  On a plan without null entries, an operator
    that is ready stays ready when more operators get executed, as long as
    it is not executed itself. *)
Theorem readiness_is_monotone (plan : list SearchOperation)
    (done done' : gset string) ready ready' op :
  _find_ready_operations (Some <$> plan) done = inr ready →
  _find_ready_operations (Some <$> plan) done' = inr ready' →
  done ⊆ done' → name op ∉ done' →
  op ∈ ready → op ∈ ready'.
Proof.
  unfold _find_ready_operations. rewrite !find_ready_loop_plan.
  intros [= <-] [= <-] Hsub Hnew [[_ Hdeps] Hin]%list_elem_of_filter.
  apply list_elem_of_filter. split; [|done]. split; [done|].
  eapply Forall_impl; [exact Hdeps|]. cbn beta. set_solver.
Qed.

Lemma first_unexecuted_is_ready plan done pre suf :
  plan = pre ++ suf → backward_deps plan →
  Forall (λ op, name op ∈ done) pre →
  (∃ op, op ∈ suf ∧ name op ∉ done) →
  ∃ op, op ∈ suf ∧ ready_spec plan done op.
Proof.
  intros -> Hback. revert pre Hback.
  induction suf as [|op suf IH]; intros pre Hback Hpre [op' [Hin Hnew]].
  - by apply elem_of_nil in Hin.
  - destruct (decide (name op ∈ done)) as [Hdone|Hfresh].
    + destruct (IH (pre ++ [op])) as (op'' & Hin'' & Hready).
      * by rewrite <- app_assoc.
      * apply Forall_app. split; [done|]. by constructor.
      * apply elem_of_cons in Hin as [->|Hin]; [done|]. by exists op'.
      * exists op''. split; [by apply list_elem_of_further|].
        by rewrite <- app_assoc in Hready.
    + exists op. split; [apply list_elem_of_here|]. split; [done|].
      apply Forall_forall. intros dep Hdep.
      destruct (decide (dep ∈ name <$> pre ++ op :: suf)) as [Hplan|Habsent];
        [|by right].
      left. specialize (Hback (length pre) op dep).
      rewrite list_lookup_middle in Hback by done.
      rewrite take_app_length in Hback.
      apply Hback in Hplan; [|done..].
      apply list_elem_of_fmap in Hplan as (op1 & -> & Hin1).
      by apply (proj1 (Forall_forall _ _) Hpre).
Qed.

Lemma backward_plan_ready (plan : list SearchOperation) (done : gset string) :
  backward_deps plan →
  (∃ op, op ∈ plan ∧ name op ∉ done) →
  filter (ready_spec plan done) plan ≠ [].
Proof.
  intros Hback Hleft.
  destruct (first_unexecuted_is_ready plan done [] plan eq_refl Hback)
    as (op & Hin & Hready); [constructor|done|].
  intros Hnil. assert (op ∈ filter (ready_spec plan done) plan) as Hmem
    by (by apply list_elem_of_filter).
  rewrite Hnil in Hmem. by apply elem_of_nil in Hmem.
Qed.

(** X10: no stall on backward dependencies.  If every dependency that names
    a plan operator names an earlier one, then as long as some operator is
    unexecuted the scheduler returns at least one ready operator, whatever
    the set of executed names. *)
Theorem backward_plan_has_ready_operator (plan : list SearchOperation)
    (done : gset string) ready :
  backward_deps plan →
  (∃ op, op ∈ plan ∧ name op ∉ done) →
  _find_ready_operations (Some <$> plan) done = inr ready →
  ready ≠ [].
Proof.
  intros Hback Hleft. unfold _find_ready_operations.
  rewrite find_ready_loop_plan. intros [= <-].
  by apply backward_plan_ready.
Qed.

Lemma omap_id_fmap_Some {A} (l : list A) : omap id (Some <$> l) = l.
Proof. induction l as [|x l IH]; csimpl; [done|]. by rewrite IH. Qed.

Lemma run_operation_logged env rid op st st' r remaining :
  run_operation env rid op st = (st', r) →
  LogWarning remaining ∈ logged (effects st') →
  LogWarning remaining ∈ logged (effects st).
Proof.
  unfold run_operation.
  destruct (out_raised (op_execute op (context st))); intros [= <- <-];
    cbn [effects log logged]; rewrite ?emit_logged; cbn [log logged invoke];
    rewrite ?elem_of_app, ?list_elem_of_singleton, ?emit_logged;
    cbn [log logged invoke]; rewrite ?emit_calls_logged, ?emit_logged;
    naive_solver.
Qed.

Lemma run_ready_logged env rid ready st st' r remaining :
  run_ready env rid ready st = (st', r) →
  LogWarning remaining ∈ logged (effects st') →
  LogWarning remaining ∈ logged (effects st).
Proof.
  revert st. induction ready as [|op rest IH]; intros st; simpl.
  - by intros [= <- <-].
  - destruct (run_operation env rid op st) as [st1 [e|]] eqn:Hop.
    + intros [= <- <-]. by eapply run_operation_logged.
    + intros Hrest Hin. eapply run_operation_logged; [exact Hop|].
      by eapply IH.
Qed.

Lemma run_ready_executed_bound env rid ready st st' r :
  run_ready env rid ready st = (st', r) →
  executed st' ⊆ list_to_set (name <$> ready) ∪ executed st.
Proof.
  revert st. induction ready as [|op rest IH]; intros st; csimpl.
  - intros [= <- <-]. set_solver.
  - destruct (run_operation env rid op st) as [st1 [e|]] eqn:Hop.
    + intros [= <- <-].
      pose proof (run_operation_executed _ _ _ _ _ _ Hop) as ->. set_solver.
    + intros Hrest. pose proof (IH _ Hrest) as Hsub.
      pose proof (run_operation_executed _ _ _ _ _ _ Hop) as Hdone.
      cbn in Hdone. rewrite Hdone in Hsub. set_solver.
Qed.

(** A loop that ends without exception has executed as many names as there
    are plan entries, unless it logged the warning. *)
Lemma scheduler_loop_finished env rid fuel operations st st' :
  scheduler_loop env rid fuel operations st = (st', Finished) →
  length operations ≤ size (executed st')
  ∨ ∃ remaining, LogWarning remaining ∈ logged (effects st').
Proof.
  revert st. induction fuel as [|fuel IH]; intros st; simpl.
  - case_bool_decide; [done|]. intros [= <-]. left. lia.
  - case_bool_decide; [|intros [= <-]; left; lia].
    destruct (_find_ready_operations operations (executed st))
      as [e|[|op ready]]; [done| |].
    + destruct (remaining_names operations (executed st)) as [e|remaining];
        [done|].
      intros [= <-]. right. exists remaining.
      cbn [with_effects effects log logged]. apply elem_of_app. right.
      apply list_elem_of_here.
    + destruct (run_ready env rid (op :: ready) st) as [st1 [e|]]; [done|].
      apply IH.
Qed.

Lemma size_list_to_set_le (l : list string) :
  size (list_to_set l : gset string) ≤ length l.
Proof.
  induction l as [|x l IH].
  - by rewrite list_to_set_nil, size_empty.
  - rewrite list_to_set_cons, size_union_alt, size_singleton. cbn [length].
    assert (list_to_set l ∖ {[x]} ⊆ (list_to_set l : gset string)) as Hsub
      by set_solver.
    apply subseteq_size in Hsub. lia.
Qed.

Lemma length_omap_le {A B} (f : A → option B) (l : list A) :
  length (omap f l) ≤ length l.
Proof.
  induction l as [|x l IH]; csimpl; [done|]. destruct (f x); csimpl; lia.
Qed.

Lemma quiet_return_complete env rid config ctx c :
  outcome (execute env rid config ctx) = Returns c →
  warning_free (run_effects (execute env rid config ctx)) →
  run_executed (execute env rid config ctx)
  = list_to_set (name <$> omap id (_extract_operations_from_config config))
  ∧ ∀ op, Some op ∈ _extract_operations_from_config config →
          (name op, true) ∈ invoked (run_effects (execute env rid config ctx)).
Proof.
  intros Hret Hquiet.
  set (operations := _extract_operations_from_config config) in *.
  destruct (execute_returns _ _ _ _ _ Hret) as (st & Hloop & -> & _).
  fold operations in Hloop.
  assert (execute env rid config ctx
          = cleanup env rid ctx
              (finalize_and_report env rid (length operations) st) None)
    as Hexec.
  { unfold execute. fold operations. by rewrite Hloop. }
  assert (order_inv operations [] (initial_state env rid config)) as Hinit.
  { unfold order_inv. rewrite initial_state_invoked.
    cbn [initial_state executed]. split; [|split; [|constructor]].
    - intros before nm b after Hnil. by destruct before.
    - intros nm. set_solver. }
  destruct (scheduler_loop_order _ _ _ _ _ _ _ Hinit Hloop) as [Hord Hexecd].
  assert (run_executed (execute env rid config ctx) = executed st) as Hrun.
  { rewrite Hexec. unfold cleanup. by destruct (track_event_raises env _). }
  assert (invoked (run_effects (execute env rid config ctx))
          = invoked (effects st)) as Hinv.
  { by rewrite Hexec, cleanup_invoked, finalize_and_report_invoked. }
  assert (executed st ⊆ list_to_set (name <$> omap id operations)) as Hsub.
  { intros nm Hnm. apply Hexecd in Hnm.
    apply list_elem_of_split in Hnm as (before & after & Hsplit).
    destruct (Hord _ _ _ _ Hsplit) as (op & Hin & <- & _).
    apply elem_of_list_to_set, list_elem_of_fmap. exists op. split; [done|].
    apply list_elem_of_omap. by exists (Some op). }
  assert (length operations ≤ size (executed st)) as Hsize.
  { destruct (scheduler_loop_finished _ _ _ _ _ _ Hloop)
      as [?|[remaining Hwarn]]; [done|].
    exfalso. apply (Hquiet remaining). rewrite Hexec.
    apply cleanup_logged.
    by apply (stable_finalize_and_report _ _ _ _ _ (logged_stable _)). }
  assert (executed st = list_to_set (name <$> omap id operations)) as Heq.
  { apply set_subseteq_size_eq; [done|].
    pose proof (size_list_to_set_le (name <$> omap id operations)) as Hle.
    rewrite length_fmap in Hle.
    pose proof (length_omap_le id operations). lia. }
  rewrite Hrun, Hinv. split; [done|].
  intros op Hop. apply Hexecd. rewrite Heq.
  apply elem_of_list_to_set, list_elem_of_fmap. exists op. split; [done|].
  apply list_elem_of_omap. by exists (Some op).
Qed.

(** X11: a run that returns without having logged the "cannot execute
    remaining operations" warning has executed the whole plan: the executed
    names are exactly the names of the plan's operators, and every plan
    operator has a call that returned. *)
Theorem quiet_return_means_complete env rid config ctx c :
  outcome (execute env rid config ctx) = Returns c →
  warning_free (run_effects (execute env rid config ctx)) →
  run_executed (execute env rid config ctx)
  = list_to_set (name <$> omap id (_extract_operations_from_config config))
  ∧ ∀ op, Some op ∈ _extract_operations_from_config config →
          (name op, true) ∈ invoked (run_effects (execute env rid config ctx)).
Proof. apply quiet_return_complete. Qed.

Section Progress.
Variable env : Env.
Variable request_id : option string.
Variable plan : list SearchOperation.
Hypothesis unique_names : NoDup (name <$> plan).
Hypothesis backward : backward_deps plan.

Lemma unexecuted_operator_exists (done : gset string) :
  done ⊆ list_to_set (name <$> plan) → size done < length plan →
  ∃ op, op ∈ plan ∧ name op ∉ done.
Proof.
  intros Hsub Hlt.
  destruct (decide (Forall (λ op, name op ∈ done) plan)) as [Hall|Hsome].
  - exfalso.
    assert (list_to_set (name <$> plan) ⊆ done) as Hsup.
    { intros nm [op [-> Hin]]%elem_of_list_to_set%list_elem_of_fmap.
      by apply (proj1 (Forall_forall _ _) Hall). }
    pose proof (subseteq_size _ _ Hsup) as Hle.
    rewrite size_list_to_set, length_fmap in Hle by done. lia.
  - apply not_Forall_Exists in Hsome; [|apply _].
    apply Exists_exists in Hsome as (op & Hin & Hnew). by exists op.
Qed.

Lemma scheduler_loop_never_stalls fuel st st' ex :
  executed st ⊆ list_to_set (name <$> plan) →
  warning_free (effects st) →
  scheduler_loop env request_id fuel (Some <$> plan) st = (st', ex) →
  warning_free (effects st').
Proof.
  revert st. induction fuel as [|fuel IH]; intros st Hsub Hquiet; simpl.
  - case_bool_decide; by intros [= <- <-].
  - rewrite length_fmap. case_bool_decide as Hlt; [|by intros [= <- <-]].
    destruct (_find_ready_operations (Some <$> plan) (executed st))
      as [e|[|op ready]] eqn:Hready; [by intros [= <- <-]| |].
    + exfalso. unfold _find_ready_operations in Hready.
      rewrite find_ready_loop_plan in Hready. injection Hready as Hnil.
      by apply (backward_plan_ready plan (executed st) backward
                  (unexecuted_operator_exists _ Hsub Hlt)).
    + destruct (run_ready env request_id (op :: ready) st)
        as [st1 [e|]] eqn:Hrun.
      * intros [= <- <-] remaining Hin. apply (Hquiet remaining).
        by eapply run_ready_logged.
      * apply IH.
        -- pose proof (run_ready_executed_bound _ _ _ _ _ _ Hrun) as Hb.
           destruct (find_ready_loop_sound _ _ _ _ Hready) as [Hsl _].
           rewrite omap_id_fmap_Some in Hsl.
           apply (fmap_sublist name) in Hsl.
           apply sublist_subseteq in Hsl. set_solver.
        -- intros remaining Hin. apply (Hquiet remaining).
           by eapply run_ready_logged.
Qed.

End Progress.

Lemma cleanup_warnings env rid ctx st pending remaining :
  LogWarning remaining ∈ logged (run_effects (cleanup env rid ctx st pending)) →
  LogWarning remaining ∈ logged (effects st).
Proof.
  unfold cleanup. destruct (track_event_raises env _); cbn [run_effects];
    rewrite ?emit_logged; done.
Qed.

Lemma finalize_and_report_warnings env rid n st remaining :
  LogWarning remaining ∈ logged (effects (finalize_and_report env rid n st)) →
  LogWarning remaining ∈ logged (effects st).
Proof.
  unfold finalize_and_report. cbn [effects]. rewrite emit_logged.
  cbn [log logged]. rewrite emit_logged, elem_of_app, list_elem_of_singleton.
  naive_solver.
Qed.

(** X12: a plan without null entries, with distinct names and backward
    dependencies is never stalled: on no path is the "cannot execute
    remaining operations" warning logged, and when [execute] returns, every
    operator of the plan has been called and has returned. *)
Theorem backward_plan_never_stalls env rid config ctx plan :
  _extract_operations_from_config config = Some <$> plan →
  NoDup (name <$> plan) → backward_deps plan →
  warning_free (run_effects (execute env rid config ctx))
  ∧ ∀ c, outcome (execute env rid config ctx) = Returns c →
         ∀ op, op ∈ plan →
               (name op, true)
               ∈ invoked (run_effects (execute env rid config ctx)).
Proof.
  intros Hplan Hnd Hback.
  assert (warning_free (run_effects (execute env rid config ctx))) as Hquiet.
  { destruct (execute_cases env rid config ctx) as (st & ex & Hloop & Hex).
    rewrite Hplan in Hloop.
    assert (warning_free (effects st)) as Hst.
    { eapply (scheduler_loop_never_stalls env rid plan Hnd Hback);
        [| |exact Hloop].
      - cbn [initial_state executed]. set_solver.
      - intros remaining. unfold initial_state. cbn [effects].
        rewrite emit_logged. cbn [log logged no_effects].
        rewrite app_nil_l, list_elem_of_singleton. done. }
    intros remaining Hin. apply (Hst remaining).
    destruct ex as [|e|]; [| |done]; rewrite Hex in Hin;
      apply cleanup_warnings in Hin; [|done].
    by apply finalize_and_report_warnings in Hin. }
  split; [done|]. intros c Hret op Hop.
  destruct (quiet_return_complete _ _ _ _ _ Hret Hquiet) as [_ Hall].
  apply Hall. rewrite Hplan. by apply list_elem_of_fmap_2.
Qed.

(** ** Publish failures *)

Section PublishFailures.
Variable env : Env.
Variable raises : Event → bool.
Variable request_id : option string.

Lemma emit_same t d o fx1 fx2 :
  same_but_delivery fx1 fx2 →
  same_but_delivery (emit env request_id t d o fx1)
    (emit (with_publish_raises raises env) request_id t d o fx2).
Proof.
  intros (Hg & Hs & Hp & Hl & Ht & Hi). unfold emit.
  destruct (truthy request_id); cbn [negb]; [|done].
  unfold same_but_delivery.
  cbn [global_sequence op_sequences published logged tracked invoked].
  by rewrite Hg, Hs, Hp, Hl, Ht, Hi.
Qed.

Lemma emit_calls_same calls fx1 fx2 :
  same_but_delivery fx1 fx2 →
  same_but_delivery (emit_calls env request_id calls fx1)
    (emit_calls (with_publish_raises raises env) request_id calls fx2).
Proof.
  revert fx1 fx2. induction calls as [|c calls IH]; intros fx1 fx2 Hsame;
    [done|].
  unfold emit_calls in *. cbn [foldl]. by apply IH, emit_same.
Qed.

Lemma log_same entry fx1 fx2 :
  same_but_delivery fx1 fx2 → same_but_delivery (log entry fx1) (log entry fx2).
Proof.
  intros (Hg & Hs & Hp & Hl & Ht & Hi). unfold same_but_delivery.
  cbn [log global_sequence op_sequences published logged tracked invoked].
  by rewrite Hg, Hs, Hp, Hl, Ht, Hi.
Qed.

Lemma invoke_same nm b fx1 fx2 :
  same_but_delivery fx1 fx2 →
  same_but_delivery (invoke nm b fx1) (invoke nm b fx2).
Proof.
  intros (Hg & Hs & Hp & Hl & Ht & Hi). unfold same_but_delivery.
  cbn [invoke global_sequence op_sequences published logged tracked invoked].
  by rewrite Hg, Hs, Hp, Hl, Ht, Hi.
Qed.

Lemma track_same ev fx1 fx2 :
  same_but_delivery fx1 fx2 → same_but_delivery (track ev fx1) (track ev fx2).
Proof.
  intros (Hg & Hs & Hp & Hl & Ht & Hi). unfold same_but_delivery.
  cbn [track global_sequence op_sequences published logged tracked invoked].
  by rewrite Hg, Hs, Hp, Hl, Ht, Hi.
Qed.

Lemma run_operation_same op st1 st2 :
  same_state_but_delivery st1 st2 →
  same_state_but_delivery (run_operation env request_id op st1).1
    (run_operation (with_publish_raises raises env) request_id op st2).1
  ∧ (run_operation env request_id op st1).2
    = (run_operation (with_publish_raises raises env) request_id op st2).2.
Proof.
  intros (Hc & He & Hfx). unfold run_operation. rewrite Hc, He.
  destruct (out_raised (op_execute op (context st2))); cbn [fst snd];
    (split; [|done]); unfold same_state_but_delivery;
    cbn [context executed effects]; (split; [done|]); (split; [done|]).
  - by apply emit_same, log_same, invoke_same, emit_calls_same, emit_same.
  - by apply log_same, emit_same, log_same, invoke_same, emit_calls_same,
      emit_same.
Qed.

Lemma run_ready_same ready st1 st2 :
  same_state_but_delivery st1 st2 →
  same_state_but_delivery (run_ready env request_id ready st1).1
    (run_ready (with_publish_raises raises env) request_id ready st2).1
  ∧ (run_ready env request_id ready st1).2
    = (run_ready (with_publish_raises raises env) request_id ready st2).2.
Proof.
  revert st1 st2. induction ready as [|op rest IH]; intros st1 st2 Hsame;
    cbn [run_ready]; [done|].
  destruct (run_operation_same op st1 st2 Hsame) as [Hst Hr].
  destruct (run_operation env request_id op st1) as [st1' r1].
  destruct (run_operation (with_publish_raises raises env) request_id op st2)
    as [st2' r2].
  cbn [fst snd] in Hst, Hr. subst r2. destruct r1; [done|]. by apply IH.
Qed.

Lemma scheduler_loop_same fuel operations st1 st2 :
  same_state_but_delivery st1 st2 →
  same_state_but_delivery
    (scheduler_loop env request_id fuel operations st1).1
    (scheduler_loop (with_publish_raises raises env) request_id fuel
       operations st2).1
  ∧ (scheduler_loop env request_id fuel operations st1).2
    = (scheduler_loop (with_publish_raises raises env) request_id fuel
         operations st2).2.
Proof.
  revert st1 st2. induction fuel as [|fuel IH]; intros st1 st2 Hsame;
    cbn [scheduler_loop]; pose proof Hsame as (Hc & He & Hfx); rewrite He.
  - by case_bool_decide.
  - case_bool_decide; [|done].
    destruct (_find_ready_operations operations (executed st2))
      as [e|[|op ready]]; [done| |].
    + destruct (remaining_names operations (executed st2)); [done|].
      cbn [fst snd]. split; [|done]. unfold same_state_but_delivery.
      cbn [with_effects context executed effects].
      split; [done|]. split; [done|]. by apply log_same.
    + destruct (run_ready_same (op :: ready) st1 st2 Hsame) as [Hst Hr].
      destruct (run_ready env request_id (op :: ready) st1) as [st1' r1].
      destruct (run_ready (with_publish_raises raises env) request_id
                  (op :: ready) st2) as [st2' r2].
      cbn [fst snd] in Hst, Hr. subst r2. destruct r1; [done|]. by apply IH.
Qed.

(** X13: publish failures never reach the pipeline.  Replacing the answer
    to "does this publish raise?" by any other changes neither how
    [execute] ends, nor the context, nor the executed set, nor the frames
    handed to the publisher, the sequence counters, the log, the analytics
    call or the operator calls: only what is delivered can differ. *)
Theorem publish_failures_are_invisible config ctx :
  let run1 := execute env request_id config ctx in
  let run2 := execute (with_publish_raises raises env) request_id config ctx in
  outcome run1 = outcome run2
  ∧ final_context run1 = final_context run2
  ∧ run_executed run1 = run_executed run2
  ∧ same_but_delivery (run_effects run1) (run_effects run2).
Proof.
  cbn zeta. unfold execute.
  set (operations := _extract_operations_from_config config).
  assert (same_state_but_delivery (initial_state env request_id config)
            (initial_state (with_publish_raises raises env) request_id config))
    as Hinit.
  { unfold initial_state, same_state_but_delivery.
    cbn [context executed effects]. split; [done|]. split; [done|].
    by apply emit_same, log_same. }
  destruct (scheduler_loop_same (length operations) operations _ _ Hinit)
    as [(Hc & He & Hfx) Hex].
  destruct (scheduler_loop env request_id (length operations) operations
              (initial_state env request_id config)) as [st1 ex1].
  destruct (scheduler_loop (with_publish_raises raises env) request_id
              (length operations) operations
              (initial_state (with_publish_raises raises env) request_id config))
    as [st2 ex2].
  cbn [fst snd] in Hc, He, Hfx, Hex. subst ex2.
  assert (∀ s1 s2 pending,
            same_state_but_delivery s1 s2 →
            outcome (cleanup env request_id ctx s1 pending)
            = outcome (cleanup (with_publish_raises raises env) request_id ctx
                         s2 pending)
            ∧ final_context (cleanup env request_id ctx s1 pending)
              = final_context (cleanup (with_publish_raises raises env)
                                 request_id ctx s2 pending)
            ∧ run_executed (cleanup env request_id ctx s1 pending)
              = run_executed (cleanup (with_publish_raises raises env)
                                request_id ctx s2 pending)
            ∧ same_but_delivery
                (run_effects (cleanup env request_id ctx s1 pending))
                (run_effects (cleanup (with_publish_raises raises env)
                                request_id ctx s2 pending))) as Hclean.
  { intros s1 s2 pending (Hc' & He' & Hfx'). unfold cleanup.
    unfold search_query_event, search_properties.
    cbn [with_publish_raises track_event_raises clock_duration_ms].
    rewrite Hc', He'.
    destruct (track_event_raises env _);
      cbn [outcome final_context run_executed run_effects];
      (split; [done|]); (split; [done|]); (split; [done|]).
    - by apply track_same.
    - by apply emit_same, track_same. }
  destruct ex1 as [|e|].
  - apply Hclean. unfold finalize_and_report, same_state_but_delivery.
    cbn [context executed effects with_publish_raises clock_total_ms].
    rewrite Hc, He. split; [done|]. split; [done|].
    by apply emit_same, log_same, emit_same.
  - by apply Hclean.
  - cbn [outcome final_context run_executed run_effects]. done.
Qed.

End PublishFailures.

(** ** Timings and the stream *)

Lemma emit_calls_opaque env rid calls fx :
  truthy rid = true →
  ∃ evs, published (emit_calls env rid calls fx) = published fx ++ evs
         ∧ Forall (λ e, ev_data e = DOpaque) evs.
Proof.
  intros Hrid. revert fx. induction calls as [|c calls IH]; intros fx.
  - exists []. by rewrite app_nil_r.
  - unfold emit_calls in *. cbn [foldl].
    destruct (IH (emit env rid (call_type c) DOpaque (call_op c) fx))
      as (evs & Hpub & Hdata).
    destruct (emit_on env rid (call_type c) DOpaque (call_op c) fx Hrid)
      as (ev & Hpub1 & _ & _ & Hd & _).
    exists (ev :: evs). rewrite Hpub, Hpub1, <- app_assoc. split; [done|].
    by constructor.
Qed.

Lemma end_reports_opaque evs :
  Forall (λ e, ev_data e = DOpaque) evs → end_reports evs = [].
Proof.
  induction 1 as [|e evs He _ IH]; [done|].
  unfold end_reports in *. csimpl. by rewrite He, IH.
Qed.

(** What one pass through the body of [for op in ready] adds to the
    reports of the stream. *)
Lemma run_operation_reports env rid op st st' r :
  truthy rid = true →
  run_operation env rid op st = (st', r) →
  end_reports (published (effects st'))
  = end_reports (published (effects st))
    ++ match r with
       | None => [(name op, out_ms (op_execute op (context st)))]
       | Some _ => []
       end.
Proof.
  intros Hrid. unfold run_operation.
  set (out := op_execute op (context st)).
  match goal with
  | |- context [emit ?e ?r "operator_start" ?d ?o ?fx] =>
      destruct (emit_on e r "operator_start" d o fx Hrid)
        as (ev1 & Hpub1 & _ & _ & Hd1 & _);
      set (fx1 := emit e r "operator_start" d o fx) in *
  end.
  destruct (emit_calls_opaque env rid (out_emits out) fx1 Hrid)
    as (evs & Hpub2 & Hopaque).
  set (fx2 := emit_calls env rid (out_emits out) fx1) in *.
  assert (∀ ev3, end_reports (published (effects st) ++ [ev1] ++ evs ++ [ev3])
                 = end_reports (published (effects st))
                   ++ end_reports [ev3]) as Hsplit.
  { intros ev3. unfold end_reports. rewrite !omap_app.
    fold (end_reports evs). rewrite (end_reports_opaque evs Hopaque).
    csimpl. by rewrite Hd1. }
  destruct (out_raised out) as [message|]; intros [= <- <-]; cbn [effects].
  - match goal with
    | |- context [emit ?e ?r "error" ?d ?o ?fx] =>
        destruct (emit_on e r "error" d o fx Hrid)
          as (ev3 & Hpub3 & _ & _ & Hd3 & _)
    end.
    rewrite Hpub3. cbn [log invoke published].
    rewrite Hpub2, Hpub1, <- !app_assoc, Hsplit.
    unfold end_reports at 2. csimpl. by rewrite Hd3.
  - cbn [log published].
    match goal with
    | |- context [emit ?e ?r "operator_end" ?d ?o ?fx] =>
        destruct (emit_on e r "operator_end" d o fx Hrid)
          as (ev3 & Hpub3 & _ & _ & Hd3 & _)
    end.
    rewrite Hpub3. cbn [log invoke published].
    rewrite Hpub2, Hpub1, <- !app_assoc, Hsplit.
    unfold end_reports at 2. csimpl. by rewrite Hd3.
Qed.

Lemma end_reports_snoc_other evs ev :
  (∀ nm ms, ev_data ev ≠ DOperatorEnd nm ms) →
  end_reports (evs ++ [ev]) = end_reports evs.
Proof.
  intros Hother. unfold end_reports. rewrite omap_app. csimpl.
  destruct (ev_data ev) eqn:Hd; rewrite ?app_nil_r; try done.
  by destruct (Hother nm ms).
Qed.

Lemma emit_reports_other env rid t d fx :
  (∀ nm ms, d ≠ DOperatorEnd nm ms) →
  end_reports (published (emit env rid t d None fx))
  = end_reports (published fx).
Proof.
  intros Hother. destruct (truthy rid) eqn:Hrid; [|by rewrite emit_off].
  destruct (emit_on env rid t d None fx Hrid) as (ev & -> & _ & _ & Hd & _).
  apply end_reports_snoc_other. by rewrite Hd.
Qed.

Section Reports.
Variable env : Env.
Variable request_id : option string.
Variable operations : list (option SearchOperation).
Hypothesis streaming : truthy request_id = true.
Hypothesis unique_names : NoDup (name <$> omap id operations).
Hypothesis tidy_operators : Forall leaves_timings (omap id operations).

Lemma scheduler_loop_reports fuel st st' ex :
  reports_inv [] st →
  scheduler_loop env request_id fuel operations st = (st', ex) →
  ctx_timings (context st') = end_reports (published (effects st')).
Proof.
  intros Hinv Hloop.
  pose proof (scheduler_loop_rule env request_id operations reports_inv
                (λ _ s, ctx_timings (context s)
                        = end_reports (published (effects s)))) as Hrule.
  cut (match ex with
       | Raised (OperatorError _) =>
           ctx_timings (context st') = end_reports (published (effects st'))
       | _ => reports_inv [] st'
       end).
  { by destruct ex as [|[]|]; try done; intros [? _]. }
  eapply Hrule; [| | | |exact Hinv|exact Hloop].
  - intros s ready [Hrep Htim] Hready. split; [done|].
    by eapply timings_inv_batch.
  - intros op rest s s' [Hrep Htim] Hop. split.
    + rewrite (run_operation_reports _ _ _ _ _ _ streaming Hop), <- Hrep.
      destruct Htim as (Hkeys & _ & Hin & _ & Hrest).
      apply Forall_cons in Hrest as [[Hnew Htidy] _].
      destruct (run_operation_returned _ _ _ _ _ Hop) as (_ & -> & _).
      cbn [with_timing ctx_timings]. rewrite Htidy.
      apply dict_set_fresh. rewrite Hkeys. naive_solver.
    + by eapply timings_inv_returned.
  - intros op rest s s' e [Hrep Htim] Hop.
    rewrite (run_operation_reports _ _ _ _ _ _ streaming Hop), app_nil_r, <- Hrep.
    destruct Htim as (_ & _ & _ & _ & Hrest).
    apply Forall_cons in Hrest as [[_ Htidy] _].
    destruct (run_operation_failed _ _ _ _ _ _ Hop) as (? & _ & _ & -> & _).
    cbn [with_error ctx_timings]. apply Htidy.
  - by intros s remaining [? (? & ? & ? & ? & ?)].
Qed.

End Reports.


(** * Properties of the context-aware analytics service *)

Section Contextual.
Import ContextualAnalytics.

Lemma asdict_keys h :
  (asdict h).*1
  = ["user_agent"; "client_name"; "client_version"; "session_id"; "sdk_name";
     "sdk_version"; "framework_name"; "framework_version"; "request_id"].
Proof. done. Qed.

Lemma to_dict_entries_keys (l : list (string * option string)) :
  (omap (λ kv, (λ v, (kv.1, VStr v)) <$> kv.2) l).*1 `sublist_of` l.*1.
Proof.
  induction l as [|[k [v|]] l IH]; csimpl.
  - constructor.
  - by apply sublist_skip.
  - by apply sublist_cons.
Qed.

Lemma to_dict_lookup h k v :
  to_dict h !! k = Some v ↔ ∃ s, (k, Some s) ∈ asdict h ∧ v = VStr s.
Proof.
  unfold to_dict. rewrite <- elem_of_list_to_map.
  - rewrite list_elem_of_omap. split.
    + intros ([k' [s|]] & Hin & Heq); csimpl in Heq; [|done].
      injection Heq as <- <-. by exists s.
    + intros (s & Hin & ->). by exists (k, Some s).
  - eapply sublist_NoDup; [|apply to_dict_entries_keys].
    rewrite asdict_keys. compute_done.
Qed.

(** X15: [to_dict] keeps exactly the header fields that are set: a key maps
    to a value if and only if the field of that name holds this string, and
    no key outside the nine header fields ever appears. *)
Theorem to_dict_holds_the_set_fields h k v :
  to_dict h !! k = Some v ↔ ∃ s, (k, Some s) ∈ asdict h ∧ v = VStr s.
Proof. apply to_dict_lookup. Qed.

Lemma to_dict_not_a_header h k :
  k ∉ (asdict h).*1 → to_dict h !! k = None.
Proof.
  intros Hk. destruct (to_dict h !! k) as [v|] eqn:Hv; [|done].
  apply to_dict_lookup in Hv as (s & Hin & _).
  exfalso. apply Hk. by apply (list_elem_of_fmap_2 fst) in Hin.
Qed.

Lemma track_event_properties s nm props k :
  properties (track_event s nm props) !! k
  = match default ∅ props !! k with
    | Some v => Some v
    | None => match to_dict (headers s) !! k with
              | Some v => Some v
              | None => context_properties (context s) !! k
              end
    end.
Proof.
  unfold track_event, _build_base_properties. cbn [properties].
  destruct props as [p|]; cbn [default from_option id].
  - case_decide as Hempty.
    + subst p. rewrite lookup_empty, lookup_union.
      by destruct (to_dict (headers s) !! k),
        (context_properties (context s) !! k).
    + rewrite !lookup_union.
      by destruct (p !! k), (to_dict (headers s) !! k),
        (context_properties (context s) !! k).
  - rewrite lookup_empty, lookup_union.
    by destruct (to_dict (headers s) !! k),
      (context_properties (context s) !! k).
Qed.

(** X16: who wins when property keys collide.  In the properties sent with
    an event, the caller's properties take precedence over the header
    entries, which take precedence over the context entries; in particular
    a [request_id] header replaces the request id of the context unless the
    caller passes one. *)
Theorem track_event_precedence s nm props k :
  properties (track_event s nm props) !! k
  = match default ∅ props !! k with
    | Some v => Some v
    | None => match to_dict (headers s) !! k with
              | Some v => Some v
              | None => context_properties (context s) !! k
              end
    end
  ∧ (∀ r, request_id (headers s) = Some r →
          default ∅ props !! "request_id" = None →
          properties (track_event s nm props) !! "request_id"
          = Some (VStr r)).
Proof.
  split; [apply track_event_properties|].
  intros r Hr Hnone. rewrite track_event_properties, Hnone.
  assert (to_dict (headers s) !! "request_id" = Some (VStr r)) as ->; [|done].
  apply to_dict_lookup. exists r. split; [|done].
  unfold asdict. rewrite Hr. set_solver.
Qed.

(** X17: [track_api_call] names the event "api_call_error" exactly when a
    non-empty error is given and "api_call" otherwise (an empty error string
    counts as no error); the event carries [endpoint] and [status_code]
    always, [duration_ms] exactly when one is given (also when it is 0), and
    [error] exactly for a non-empty error. *)
Theorem track_api_call_shape s endpoint duration status_code error :
  let call := track_api_call s endpoint duration status_code error in
  event_name call = (if truthy error then "api_call_error" else "api_call")
  ∧ properties call !! "endpoint" = Some (VStr endpoint)
  ∧ properties call !! "status_code" = Some (VNum status_code)
  ∧ properties call !! "duration_ms" = VNum <$> duration
  ∧ properties call !! "error"
    = (if truthy error then VStr <$> error else None)
  ∧ distinct_id call = _get_distinct_id s.
Proof.
  cbn zeta. unfold track_api_call.
  assert (∀ k, k ∉ (asdict (headers s)).*1 →
               k ≠ "auth_method" → k ≠ "organization_name" →
               k ≠ "request_id" →
               to_dict (headers s) !! k = None
               ∧ context_properties (context s) !! k = None) as Hbase.
  { intros k Hk H1 H2 H3. rewrite (to_dict_not_a_header _ _ Hk).
    unfold context_properties.
    by rewrite !lookup_insert_ne, lookup_singleton_ne. }
  destruct (Hbase "duration_ms") as [Hd1 Hd2];
    [rewrite asdict_keys; compute_done|done..|].
  destruct (Hbase "error") as [He1 He2];
    [rewrite asdict_keys; compute_done|done..|].
  split; [by destruct (truthy error)|].
  rewrite !track_event_properties. cbn [default from_option id].
  rewrite Hd1, Hd2, He1, He2.
  destruct duration as [d|], error as [e|]; cbn [truthy];
    try destruct (negb (bool_decide (e = "")));
    cbn [fmap option_fmap option_map]; repeat split; by simplify_map_eq.
Qed.

(** X18: [track_search_query] records [results_count] whenever a count is
    given, also when it is 0, and omits the key only when none is given;
    [query_length] is the length of the query. *)
Theorem track_search_query_keeps_zero s q collection duration kind count st :
  let call := track_search_query s q collection duration kind count st in
  event_name call = "search_query"
  ∧ properties call !! "results_count" = VNum <$> count
  ∧ properties call !! "query_length"
    = Some (VNum (Z.of_nat (String.length q)))
  ∧ properties call !! "status" = Some (VStr st).
Proof.
  cbn zeta. unfold track_search_query. split; [done|].
  assert (to_dict (headers s) !! "results_count" = None) as Hh
    by (apply to_dict_not_a_header; rewrite asdict_keys; compute_done).
  assert (context_properties (context s) !! "results_count" = None) as Hc.
  { unfold context_properties.
    by rewrite !lookup_insert_ne, lookup_singleton_ne. }
  rewrite !track_event_properties. cbn [default from_option id].
  rewrite Hh, Hc.
  destruct count as [n|]; cbn [fmap option_fmap option_map]; repeat split;
    by simplify_map_eq.
Qed.

End Contextual.

(** * Concrete runs for the further properties *)

Section MoreWitnesses.
Import Scenarios ContextualAnalytics ContextualScenarios.

Lemma no_request_id_no_events_witness :
  truthy None = false
  ∧ published (run_effects (execute env_ok None minimal_config api)) = []
  ∧ delivered (run_effects (execute env_ok None minimal_config api)) = []
  ∧ global_sequence (run_effects (execute env_ok None minimal_config api)) = 0
  ∧ op_sequences (run_effects (execute env_ok None minimal_config api)) = ∅.
Proof.
  split; [reflexivity|]. apply no_request_id_no_events. reflexivity.
Defined.


Lemma returned_context_is_streamed_witness :
  truthy (Some "r1") = true
  ∧ outcome (execute env_ok (Some "r1") minimal_config api)
    = Returns (final_context (execute env_ok (Some "r1") minimal_config api))
  ∧ ∃ before ev_results ev_summary ev_done hits,
      published (run_effects (execute env_ok (Some "r1") minimal_config api))
      = before ++ [ev_results; ev_summary; ev_done]
      ∧ ctx_final_results
          (final_context (execute env_ok (Some "r1") minimal_config api))
        = Some hits
      ∧ ev_type ev_results = "results" ∧ ev_data ev_results = DResults hits
      ∧ ev_type ev_summary = "summary"
      ∧ ev_data ev_summary
        = DSummary
            (ctx_timings
               (final_context (execute env_ok (Some "r1") minimal_config api)))
            (ctx_errors
               (final_context (execute env_ok (Some "r1") minimal_config api)))
            (clock_total_ms env_ok)
      ∧ ev_type ev_done = "done" ∧ ev_data ev_done = DDone (Some "r1").
Proof.
  assert (outcome (execute env_ok (Some "r1") minimal_config api)
          = Returns (final_context
                       (execute env_ok (Some "r1") minimal_config api)))
    as Hret by (by vm_compute).
  split; [reflexivity|]. split; [exact Hret|].
  by apply returned_context_is_streamed.
Defined.

Lemma tidy_scenario_operators :
  Forall leaves_timings
    [embedding_op; vector_search_op; reranking_boom; op_a; op_b].
Proof. repeat apply Forall_cons_2; try apply Forall_nil_2; by intros c. Defined.

Lemma failing_config_plan :
  omap id (_extract_operations_from_config failing_config)
  = [embedding_op; vector_search_op; reranking_boom].
Proof. reflexivity. Defined.

Lemma timings_keys_are_returned_calls_witness :
  NoDup (name <$> omap id (_extract_operations_from_config failing_config))
  ∧ Forall leaves_timings
      (omap id (_extract_operations_from_config failing_config))
  ∧ (ctx_timings
       (final_context (execute env_ok None failing_config api))).*1
    = ["embedding"; "vector_search"]
  ∧ invoked (run_effects (execute env_ok None failing_config api))
    = [("embedding", true); ("vector_search", true); ("reranking", false)].
Proof.
  assert (NoDup (name <$> omap id
                   (_extract_operations_from_config failing_config))) as Hnd
    by compute_done.
  assert (Forall leaves_timings
            (omap id (_extract_operations_from_config failing_config)))
    as Htidy.
  { rewrite failing_config_plan. pose proof tidy_scenario_operators as Hall.
    apply Forall_cons in Hall as [? Hall].
    apply Forall_cons in Hall as [? Hall].
    apply Forall_cons in Hall as [? _].
    repeat apply Forall_cons_2; try apply Forall_nil_2; assumption. }
  split; [exact Hnd|]. split; [exact Htidy|]. split; [|by vm_compute].
  rewrite (timings_keys_are_returned_calls env_ok None failing_config api
             Hnd Htidy).
  by vm_compute.
Defined.

Lemma readiness_is_monotone_witness :
  _find_ready_operations (Some <$> [embedding_op; vector_search_op]) ∅
  = inr [embedding_op]
  ∧ _find_ready_operations (Some <$> [embedding_op; vector_search_op])
      {["query_expansion"]}
    = inr [embedding_op]
  ∧ (∅ : gset string) ⊆ {["query_expansion"]}
  ∧ (name embedding_op ∉ ({["query_expansion"]} : gset string))
  ∧ embedding_op ∈ [embedding_op]
  ∧ embedding_op ∈ [embedding_op].
Proof.
  assert (_find_ready_operations (Some <$> [embedding_op; vector_search_op]) ∅
          = inr [embedding_op]) as H1 by (by vm_compute).
  assert (_find_ready_operations (Some <$> [embedding_op; vector_search_op])
            {["query_expansion"]} = inr [embedding_op]) as H2
    by (by vm_compute).
  assert ((∅ : gset string) ⊆ {["query_expansion"]}) as H3 by set_solver.
  assert (name embedding_op ∉ ({["query_expansion"]} : gset string)) as H4
    by compute_done.
  assert (embedding_op ∈ [embedding_op]) as H5 by apply list_elem_of_here.
  repeat (split; [assumption|]).
  exact (readiness_is_monotone _ _ _ _ _ _ H1 H2 H3 H4 H5).
Defined.

Lemma minimal_plan_backward :
  backward_deps [embedding_op; vector_search_op].
Proof.
  intros [|[|i]] op dep; cbn; intros [= <-] Hdep Hplan; cbn in *.
  - exfalso. apply list_elem_of_singleton in Hdep as ->. revert Hplan.
    compute_done.
  - apply elem_of_cons in Hdep as [->|Hdep]; [apply list_elem_of_here|].
    exfalso. apply list_elem_of_singleton in Hdep as ->. revert Hplan.
    compute_done.
Defined.

Lemma backward_plan_has_ready_operator_witness :
  backward_deps [embedding_op; vector_search_op]
  ∧ (∃ op, op ∈ [embedding_op; vector_search_op]
           ∧ name op ∉ ({["embedding"]} : gset string))
  ∧ _find_ready_operations (Some <$> [embedding_op; vector_search_op])
      {["embedding"]}
    = inr [vector_search_op]
  ∧ [vector_search_op] ≠ [].
Proof.
  assert (∃ op, op ∈ [embedding_op; vector_search_op]
                ∧ name op ∉ ({["embedding"]} : gset string)) as Hleft.
  { exists vector_search_op. split; [set_solver|compute_done]. }
  assert (_find_ready_operations (Some <$> [embedding_op; vector_search_op])
            {["embedding"]} = inr [vector_search_op]) as Hready
    by (by vm_compute).
  split; [exact minimal_plan_backward|]. split; [exact Hleft|].
  split; [exact Hready|].
  exact (backward_plan_has_ready_operator _ _ _ minimal_plan_backward Hleft
           Hready).
Defined.

Lemma minimal_run_warning_free :
  warning_free (run_effects (execute env_ok None minimal_config api)).
Proof.
  intros remaining Hin. vm_compute in Hin.
  repeat (apply elem_of_cons in Hin as [Hin|Hin]; [discriminate Hin|]).
  by apply elem_of_nil in Hin.
Defined.

Lemma quiet_return_means_complete_witness :
  outcome (execute env_ok None minimal_config api)
  = Returns (final_context (execute env_ok None minimal_config api))
  ∧ warning_free (run_effects (execute env_ok None minimal_config api))
  ∧ run_executed (execute env_ok None minimal_config api)
    = list_to_set
        (name <$> omap id (_extract_operations_from_config minimal_config))
  ∧ ∀ op, Some op ∈ _extract_operations_from_config minimal_config →
          (name op, true)
          ∈ invoked (run_effects (execute env_ok None minimal_config api)).
Proof.
  assert (outcome (execute env_ok None minimal_config api)
          = Returns (final_context (execute env_ok None minimal_config api)))
    as Hret by (by vm_compute).
  split; [exact Hret|]. split; [exact minimal_run_warning_free|].
  exact (quiet_return_means_complete _ _ _ _ _ Hret minimal_run_warning_free).
Defined.

Lemma backward_plan_never_stalls_witness :
  _extract_operations_from_config minimal_config
  = Some <$> [embedding_op; vector_search_op]
  ∧ NoDup (name <$> [embedding_op; vector_search_op])
  ∧ backward_deps [embedding_op; vector_search_op]
  ∧ warning_free (run_effects (execute env_ok (Some "r1") minimal_config api))
  ∧ ∀ c, outcome (execute env_ok (Some "r1") minimal_config api) = Returns c →
         ∀ op, op ∈ [embedding_op; vector_search_op] →
               (name op, true)
               ∈ invoked (run_effects
                            (execute env_ok (Some "r1") minimal_config api)).
Proof.
  assert (NoDup (name <$> [embedding_op; vector_search_op])) as Hnd
    by compute_done.
  split; [reflexivity|]. split; [exact Hnd|].
  split; [exact minimal_plan_backward|].
  exact (backward_plan_never_stalls env_ok (Some "r1") minimal_config api
           [embedding_op; vector_search_op] eq_refl Hnd minimal_plan_backward).
Defined.


Lemma to_dict_holds_the_set_fields_witness :
  (∃ s, ("sdk_name", Some s) ∈ asdict sample_headers ∧ VStr "python" = VStr s)
  ∧ to_dict sample_headers !! "sdk_name" = Some (VStr "python")
  ∧ to_dict sample_headers !! "user_agent" = None.
Proof.
  assert (∃ s, ("sdk_name", Some s) ∈ asdict sample_headers
               ∧ VStr "python" = VStr s) as Hset.
  { exists "python". split; [|done]. unfold asdict, sample_headers. cbn.
    set_solver. }
  split; [exact Hset|]. split; [|by vm_compute].
  exact (proj2 (to_dict_holds_the_set_fields sample_headers "sdk_name"
                  (VStr "python")) Hset).
Defined.

Lemma track_event_precedence_witness :
  request_id (headers sample_service) = Some "hdr-7"
  ∧ (default ∅ (None : option (gmap string Value))) !! "request_id" = None
  ∧ context_properties (context sample_service) !! "request_id"
    = Some (VStr "ctx-1")
  ∧ properties (track_event sample_service "ping" None) !! "request_id"
    = Some (VStr "hdr-7").
Proof.
  split; [reflexivity|]. split; [reflexivity|]. split; [by vm_compute|].
  destruct (track_event_precedence sample_service "ping" None "request_id")
    as [_ Hheader].
  by apply Hheader.
Defined.

End MoreWitnesses.

(** * Properties of the business events *)

Section Business.
Import BusinessEvents.

(** X19: [set_organization_properties] sends every property the caller
    passes, unchanged, and adds [organization_id]; a caller's own
    [organization_id] entry is the one sent, and without one the entry is
    the organization's id.  The group is always keyed by that id. *)
Theorem set_organization_properties_merge org_id props :
  let update := set_organization_properties org_id props in
  group_type update = "organization"
  ∧ group_key update = org_id
  ∧ map_Forall (λ k v, group_properties update !! k = Some v) props
  ∧ group_properties update !! "organization_id"
    = Some (default (ContextualAnalytics.VStr org_id)
              (props !! "organization_id"))
  ∧ dom (group_properties update) = dom props ∪ {["organization_id"]}.
Proof.
  cbn zeta. unfold set_organization_properties. cbn.
  split; [done|]. split; [done|]. split; [|split].
  - intros k v Hk. by apply lookup_union_Some_l.
  - destruct (props !! "organization_id") as [v|] eqn:Hown; cbn.
    + by apply lookup_union_Some_l.
    + rewrite lookup_union_r by done. by simplify_map_eq.
  - by rewrite dom_union_L, dom_singleton_L.
Qed.

(** X20: one identity for every event.  The five business trackers
    attribute their event to the same distinct id and the same organization
    group as the executor's [search_query] record does for that API
    context (the user id, else "api_key_<organization id>"), and they label
    the organization as the executor does: its name, or "unknown". *)
Theorem events_share_identity env rid (ctx : ApiContext) (c : Context)
    (a b d : string) (n m : Z) :
  let search := search_query_event env rid ctx c in
  let calls :=
    [track_source_connection_created ctx a b; track_sync_started ctx a b d;
     track_sync_completed ctx a n m; track_sync_failed ctx a b n;
     track_sync_cancelled ctx a b n] in
  Forall (λ call,
            ContextualAnalytics.distinct_id call = distinct_id search
            ∧ ContextualAnalytics.groups call
              = {[ "organization" := group_organization search ]}
            ∧ ContextualAnalytics.properties call !! "organization_name"
              = Some (ContextualAnalytics.VStr
                        (prop_organization_name (properties search))))
    calls
  ∧ ContextualAnalytics.event_name <$> calls
    = ["source_connection_created"; "sync_started"; "sync_completed";
       "sync_failed"; "sync_cancelled"].
Proof.
  cbn zeta. split; [|done].
  repeat first [apply Forall_cons_2 | apply Forall_nil_2];
    (split; [done|]; split; [done|]; cbn; by simplify_map_eq).
Qed.

End Business.
